(** * Rendering inference results onto an image: a model of [app.py]

    The development embeds [get_mask], [create_output_image] and the
    rendering step of [perform_inference] and states what they do.

    Conventions of the embedding.
    - Python integers are [Z]; sequence indexing follows Python (negative
      indices count from the end, anything else raises [IndexError]).
    - Python floats are the kernel's binary64 numbers ([PrimFloat.float]).
    - An image is a list of rows of three-sample pixels, in the channel
      order of the array (OpenCV stores blue, green, red).
    - The two objects the caller hands over by reference, [image] and
      [output], live in a small heap ([world]) together with the standard
      output and the list of OpenCV drawing calls issued so far.  A function
      of the program is a state-and-exception computation over that heap:
      what has been written before an exception is raised stays written. *)

From Stdlib Require Import ZArith Floats Ascii DecimalString Lia.
From Stdlib Require DecimalZ DecimalPos.
From stdpp Require Import base list strings.

Set Warnings "-inexact-float".
Local Open Scope Z_scope.

(** ** Python values and sequences *)

Module Py.

Inductive exn : Set :=
| IndexError | ValueError | TypeError | AttributeError
| ZeroDivisionError | OverflowError | Cv2Error.

Inductive result (A : Type) : Type :=
| Ok (a : A)
| Raise (e : exn).
Arguments Ok {A} a.
Arguments Raise {A} e.

Definition is_ok {A} (r : result A) : bool :=
  match r with Ok _ => true | Raise _ => false end.

Definition and_then {A B} (r : result A) (k : A → result B) : result B :=
  match r with Ok a => k a | Raise e => Raise e end.

(** Position denoted by index [i] in a sequence of length [n]:
    [0 <= i < n] is itself, [-n <= i < 0] counts from the end. *)
Definition norm_index (n : nat) (i : Z) : option nat :=
  if (0 <=? i) && (i <? Z.of_nat n) then Some (Z.to_nat i)
  else if (- Z.of_nat n <=? i) && (i <? 0) then Some (Z.to_nat (i + Z.of_nat n))
  else None.

(** [l[i]] *)
Definition index {A} (l : list A) (i : Z) : result A :=
  match norm_index (length l) i with
  | Some k => match l !! k with
              | Some x => Ok x
              | None => Raise IndexError
              end
  | None => Raise IndexError
  end.

(** [str(n)] for an integer *)
Definition str (n : Z) : string := NilZero.string_of_int (Z.to_int n).

(** [range(0, n, 2)] *)
Definition range_by_2 (n : nat) : list nat :=
  (λ k, 2 * k)%nat <$> seq 0 (Nat.div2 (S n)).

(** [float(n)]: the nearest binary64 number *)
Definition float_of_int (n : Z) : float :=
  SF2Prim (binary_normalize prec emax n 0 false).

(** [int(x)]: truncation toward zero; [None] stands for the exception
    raised on a NaN or an infinity. *)
Definition int_of_float (x : float) : option Z :=
  match Prim2SF x with
  | S754_zero _ => Some 0
  | S754_finite s m e =>
      let mag := match e with
                 | Zneg p => Z.pos m / 2 ^ Z.pos p
                 | _ => Z.pos m * 2 ^ e
                 end in
      Some (if s then - mag else mag)
  | _ => None
  end.

End Py.

Import Py.

Notation "'let?' x := r 'in' k" := (and_then r (λ x, k))
  (at level 10, x name, r at level 100, k at level 200, only parsing).

(** ** Arrays *)

(** A pixel of a three-channel array; OpenCV's channel order. *)
Record pixel : Set := Pixel { blue : Z; green : Z; red : Z }.

(** A pixel of a decoded overlay asset, with its alpha channel. *)
Record pixel4 : Set := Pixel4 { blue4 : Z; green4 : Z; red4 : Z; alpha4 : Z }.

Abbreviation image := (list (list pixel)).
Abbreviation asset := (list (list pixel4)).

(** A [C x H x W] stack of probability maps; NumPy keeps the shape with the
    data, also when there is no channel left. *)
Record stack : Set :=
  Stack { st_h : nat; st_w : nat; st_chans : list (list (list float)) }.

Module Np.

(** [a.shape[0]], [a.shape[1]] *)
Definition height {A} (a : list (list A)) : nat := length a.
Definition width {A} (a : list (list A)) : nat := length (default [] (head a)).

(** All rows of [a] have [w] cells and there are [h] of them. *)
Definition has_shape {A} (h w : nat) (a : list (list A)) : Prop :=
  length a = h ∧ Forall (λ row, length row = w) a.

(** [np.zeros((h, w))] *)
Definition zeros (h w : nat) : list (list Z) := replicate h (replicate w 0).

(** Element-wise sum of two maps of one shape. *)
Definition add2 (a b : list (list Z)) : list (list Z) :=
  zip_with (zip_with Z.add) a b.

(** [np.sum(s, axis=0)] on a stack of shape [(_, h, w)] *)
Definition sum_axis0 (h w : nat) (s : list (list (list Z))) : list (list Z) :=
  foldl add2 (zeros h w) s.

(** One axis of broadcasting: equal lengths pair up, a length of one is
    stretched, anything else does not broadcast. *)
Definition broadcast {A B C} (f : A → B → option C)
    (la : list A) (lb : list B) : option (list C) :=
  if decide (length la = length lb) then mapM (uncurry f) (zip la lb)
  else match la, lb with
       | [a], _ => mapM (f a) lb
       | _, [b] => mapM (λ a, f a b) la
       | _, _ => None
       end.

(** [a + b] on two [H x W x 3] arrays; [None] is the [ValueError] of
    shapes that do not broadcast.  The sum of an 8-bit image and a float
    mask is a float array: its samples, integers here, are the exact sums,
    neither wrapped nor clamped. *)
Definition add_px (p q : pixel) : pixel :=
  Pixel (blue p + blue q) (green p + green q) (red p + red q).

Definition add (a b : image) : option image :=
  broadcast (broadcast (λ p q, Some (add_px p q))) a b.

(** [a[r, c] = v] *)
Definition setitem {A} (a : list (list A)) (r c : Z) (v : A)
  : option (list (list A)) :=
  match norm_index (height a) r, norm_index (width a) c with
  | Some i, Some j => Some (alter (λ row, <[j := v]> row) i a)
  | _, _ => None
  end.

End Np.

(** ** The module's tables *)

Definition CAR_COLORS : list string :=
  ["white"; "gray"; "yellow"; "red"; "green"; "blue"; "black"]%string.
Definition CAR_TYPES : list string := ["car"; "bus"; "truck"; "van"]%string.
Definition GENDER_TYPES : list string := ["female"; "male"]%string.

(** ** [get_mask] and the thresholding it is fed with *)

(** One cell of [np.where(m > 0.5, 255, 0)] *)
Definition threshold (x : float) : Z := if (0.5 <? x)%float then 255 else 0.

Definition np_where_gt (m : list (list float)) : list (list Z) :=
  (λ row : list float, threshold <$> row) <$> m.

(** [np.dstack((empty, processed_output, empty))] with
    [empty = np.zeros(processed_output.shape)] *)
Definition get_mask (processed_output : list (list Z)) : image :=
  (λ row : list Z, (λ v, Pixel 0 v 0) <$> row) <$> processed_output.

(** ** OpenCV and the C library

    The drawing and decoding primitives of OpenCV are outside the program,
    and so is the power function of the C library, which is what Python
    computes a float power with; its last bit differs from one library to
    the next.  The program is modelled over an interface of them: what a
    drawing call does to the pixels of a buffer, what [imread] finds at a
    path, what [resize] returns and what [pow] returns. *)

Inductive cv2_call : Set :=
| Circle (center : Z * Z) (radius : Z) (color : pixel) (thickness : Z)
| PutText (text : string) (org : Z * Z) (fontFace : Z) (fontScale : float)
          (color : pixel) (thickness : Z).

Definition FONT_HERSHEY_SIMPLEX : Z := 0.

Class Cv2 : Type := {
  (** [cv2.imread(path, -1)]: the decoded four-channel asset, [None] when
      the file cannot be read or decoded *)
  imread : string → option asset;
  (** [cv2.resize(src, (w, h))]; [None] is the [cv2.error] it throws *)
  resize : asset → Z * Z → option asset;
  (** the pixels of a buffer after a drawing call on it *)
  paint : cv2_call → image → image;
  (** [x ** y] on two floats: the C library's [pow(x, y)] *)
  pow : float → float → float
}.

(** The values of a C [int].  OpenCV converts the coordinates of a point
    it is given to this type. *)
Definition fits_c_int (v : Z) : bool := (- 2 ^ 31 <=? v) && (v <? 2 ^ 31).

(** ** The heap and the computations over it *)

(** What [handle_output] hands on as [output]: a stack of probability maps
    (POSE, TEXT) or a flat sequence of integers (class indices, landmark
    coordinates, age and gender index). *)
Inductive output_t : Set :=
| Heatmaps (s : stack)
| Ints (l : list Z).

(** [TheImage] is the caller's buffer itself (an alias, not a copy);
    [Fresh a] is an array allocated by the call. *)
Inductive imgref : Set :=
| TheImage
| Fresh (a : image).

Record world : Set := World {
  image_buf : image;          (** the array [image] refers to *)
  output_buf : output_t;      (** the object [output] refers to *)
  stdout : list string;       (** lines printed so far *)
  drawn : list cv2_call       (** drawing calls issued on [image], oldest first *)
}.

Definition M (A : Type) : Type := world → result A * world.

Definition ret {A} (a : A) : M A := λ w, (Ok a, w).
Definition raise {A} (e : exn) : M A := λ w, (Raise e, w).
Definition bind {A B} (m : M A) (k : A → M B) : M B :=
  λ w, match m w with
       | (Ok a, w') => k a w'
       | (Raise e, w') => (Raise e, w')
       end.

Notation "'let!' x := m 'in' k" := (bind m (λ x, k))
  (at level 10, x name, m at level 100, k at level 200, only parsing).
Notation "'run' m 'in' k" := (bind m (λ _, k))
  (at level 10, m at level 100, k at level 200, only parsing).

Definition of_result {A} (r : result A) : M A := λ w, (r, w).
Definition of_option {A} (e : exn) (o : option A) : M A :=
  match o with Some a => ret a | None => raise e end.

Definition get_image : M image := λ w, (Ok (image_buf w), w).
Definition set_image (a : image) : M unit :=
  λ w, (Ok (), World a (output_buf w) (stdout w) (drawn w)).
Definition get_output : M output_t := λ w, (Ok (output_buf w), w).
Definition set_output (o : output_t) : M unit :=
  λ w, (Ok (), World (image_buf w) o (stdout w) (drawn w)).
Definition print (line : string) : M unit :=
  λ w, (Ok (), World (image_buf w) (output_buf w) (stdout w ++ [line]) (drawn w)).

(** [for x in xs: body(x)] *)
Fixpoint for_each {A} (xs : list A) (body : A → M unit) : M unit :=
  match xs with
  | [] => ret ()
  | x :: xs' => run body x in for_each xs' body
  end.

(** The output as the branches read it.  Python would run the other
    combinations too; the decoder chosen by the same tag never produces
    them, and the statements about what a branch computes fix the kind of
    output it is given. *)
Definition heatmaps : M stack :=
  let! o := get_output in
  match o with Heatmaps s => ret s | Ints _ => raise TypeError end.
Definition ints : M (list Z) :=
  let! o := get_output in
  match o with Ints l => ret l | Heatmaps _ => raise TypeError end.

Section Program.

Context {cv : Cv2}.

(** A drawing call of OpenCV on [image], its arguments converted: it
    paints the caller's buffer in place. *)
Definition draw (c : cv2_call) : M unit :=
  λ w, (Ok (), World (paint c (image_buf w)) (output_buf w) (stdout w)
                     (drawn w ++ [c])).

(** The conversion of a pair of Python integers to a point of OpenCV: a
    coordinate that is no C [int] is refused with [cv2.error], before
    anything is painted.  FACIAL hands over entries of [output] as they
    are.  CAR_META and GENDER hand over numbers computed from the height of
    the image, itself a C [int] in an array of OpenCV: their conversion
    cannot fail and is not modelled. *)
Definition cv2_point (p : Z * Z) : M unit :=
  if fits_c_int p.1 && fits_c_int p.2 then ret () else raise Cv2Error.

(** *** POSE, lines 64 to 76 *)

(** The float a cell holds once an integer has been stored in it. *)
Definition stored (m : list (list Z)) : list (list float) :=
  (λ row : list Z, float_of_int <$> row) <$> m.

(** Lines 68 and 69: every channel of the view is overwritten with its
    thresholded form. *)
Definition threshold_in_place (view : list (list (list float)))
  : list (list (list float)) :=
  foldl (λ v c, match v !! c with
                | Some m => <[c := stored (np_where_gt m)]> v
                | None => v
                end) view (seq 0 (length view)).

(** The integer a thresholded cell holds.  The cells are 0.0 or 255.0, and
    binary64 adds such integers exactly (below 2^53): [np.sum] is taken
    over the integers. *)
Definition held (m : list (list float)) : list (list Z) :=
  (λ row : list float, (λ x, default 0 (int_of_float x)) <$> row) <$> m.

Definition pose_map (s : stack) : list (list Z) :=
  let view := removelast (st_chans s) in
  Np.sum_axis0 (st_h s) (st_w s) (held <$> threshold_in_place view).

(** Lines 72 to 76, and 80 to 84 alike: the mask of the map is added to
    the image and the sum, a new array, is returned. *)
Definition add_mask (output : list (list Z)) : M imgref :=
  let mask := get_mask output in
  let! image := get_image in
  let! sum := of_option ValueError (Np.add image mask) in
  ret (Fresh sum).

Definition pose : M imgref :=
  let! s := heatmaps in
  let view := removelast (st_chans s) in
  let view' := threshold_in_place view in
  (* the slice is a view: the writes land in the caller's array *)
  run set_output (Heatmaps (Stack (st_h s) (st_w s)
                              (view' ++ drop (length view) (st_chans s)))) in
  add_mask (pose_map s).

(** *** TEXT, lines 77 to 84 *)

Definition text_map (s : stack) : result (list (list Z)) :=
  let? m := index (st_chans s) 1 in
  Ok (np_where_gt m).

Definition text : M imgref :=
  let! s := heatmaps in
  let! output := of_result (text_map s) in
  add_mask output.

(** *** CAR_META, lines 85 to 96 *)

(** Lines 87 and 88: [CAR_COLORS[output[0]]] and [CAR_TYPES[output[1]]]. *)
Definition decodeCarMeta (output : list Z) : result (string * string) :=
  let? i0 := index output 0 in
  let? color := index CAR_COLORS i0 in
  let? i1 := index output 1 in
  let? car_type := index CAR_TYPES i1 in
  Ok (color, car_type).

(** [max(int(image.shape[0] / d), 1)]: the float quotient of a height by
    1000 or 5000, truncated, is the integer quotient. *)
Definition scaler_of (a : image) (d : Z) : Z :=
  Z.max (Z.of_nat (Np.height a) / d) 1.

Definition car_meta : M imgref :=
  let! output := ints in
  let! labels := of_result (decodeCarMeta output) in
  let! image := get_image in
  let scaler := scaler_of image 1000 in
  run draw (PutText ("Color: " +:+ labels.1 +:+ ", Type: " +:+ labels.2)
                    (50 * scaler, 100 * scaler) FONT_HERSHEY_SIMPLEX
                    (float_of_int (2 * scaler)) (Pixel 0 255 0) (3 * scaler)) in
  ret TheImage.

(** *** FACIAL, lines 97 to 113 *)

Definition facial_step (output : list Z) (i : nat) : M unit :=
  let! x := of_result (index output (Z.of_nat i)) in
  let! y := of_result (index output (Z.of_nat i + 1)) in
  (* [circle] converts its centre first; [putText] gets the same point *)
  run cv2_point (x, y) in
  run draw (Circle (x, y) 4 (Pixel 255 0 0) (-1)) in
  (* the seventh positional argument of [putText] is the thickness *)
  draw (PutText ("p" +:+ str (Z.of_nat (i / 2))) (x, y)
                FONT_HERSHEY_SIMPLEX 0.7%float (Pixel 255 255 255) 2).

Definition facial : M imgref :=
  let! output := ints in
  run for_each (range_by_2 (length output)) (facial_step output) in
  ret TheImage.

(** *** GLASS, lines 114 to 126 *)

(** Line 117.  The integer under the root is exact; converting it to a
    float raises [OverflowError] beyond the binary64 range, and
    [x ** (1/2.0)] is the power function of the C library at the exponent
    one half. *)
Definition scale (output : list Z) : result float :=
  let? x36 := index output 36 in
  let? x68 := index output 68 in
  let? y37 := index output 37 in
  let? y69 := index output 69 in
  let radicand := float_of_int ((x36 - x68) ^ 2 + (y37 - y69) ^ 2) in
  if is_infinity radicand then Raise OverflowError
  else Ok (pow radicand (1 / 2)%float).

(** The size handed to [cv2.resize] on line 118; [loaded] is what
    [imread] returned, and [None.shape] is an [AttributeError]. *)
Definition resized_size (scale : float) (loaded : option asset) : M (Z * Z) :=
  let! w := of_option OverflowError (int_of_float scale) in
  let! glasses := of_option AttributeError loaded in
  let rows := Np.height glasses in
  let cols := Np.width glasses in
  if decide (cols = 0%nat) then raise ZeroDivisionError
  else
    let! h := of_option OverflowError
                (int_of_float (scale * float_of_int (Z.of_nat rows)
                               / float_of_int (Z.of_nat cols))%float) in
    ret (w, h).

(** Lines 119 and 120: [int(a / 2 - b / 2)] for integers [a] and [b];
    halves of integers below 2^53 and their difference are exact in
    binary64, and [int] truncates toward zero. *)
Definition half_difference (a : Z) (b : nat) : Z := Z.quot (a - Z.of_nat b) 2.

(** [px[:-1]]: the colour samples of an asset pixel. *)
Definition drop_alpha (px : pixel4) : pixel :=
  Pixel (blue4 px) (green4 px) (red4 px).

(** Lines 124 and 125 for one cell of the resized asset. *)
Definition overlay_cell (glasses : asset)
    (translation_vertical translation_horizontal : Z) (i j : nat) : M unit :=
  let! row := of_option IndexError (glasses !! i) in
  let! px := of_option IndexError (row !! j) in
  if decide (alpha4 px = 0) then ret ()
  else
    let! image := get_image in
    let! image' := of_option IndexError
                     (Np.setitem image (Z.of_nat i + translation_vertical)
                                 (Z.of_nat j + translation_horizontal)
                                 (drop_alpha px)) in
    set_image image'.

(** Lines 122 to 125. *)
Definition overlay (glasses : asset)
    (translation_vertical translation_horizontal : Z) : M unit :=
  let gw := Np.height glasses in
  let gh := Np.width glasses in
  for_each (seq 0 gw) (λ i,
    for_each (seq 0 gh) (λ j,
      overlay_cell glasses translation_vertical translation_horizontal i j)).

(** Lines 116 to 120: the resized asset and where its top-left corner
    goes, as (rows to add, columns to add). *)
Definition placement (glass : string) : M (asset * (Z * Z)) :=
  (* line 115 copies the image into a local that is not used again *)
  let loaded := imread glass in
  let! output := ints in
  let! scale := of_result (scale output) in
  let! size := resized_size scale loaded in
  let! glasses := of_option AttributeError loaded in
  let! glasses := of_option Cv2Error (resize glasses size) in
  let! y0 := of_result (index output 1) in
  let! y1 := of_result (index output 5) in
  let translation_vertical := half_difference (y0 + y1) (Np.width glasses) in
  let! x0 := of_result (index output 0) in
  let! x1 := of_result (index output 4) in
  let translation_horizontal := half_difference (x0 + x1) (Np.height glasses) in
  ret (glasses, (translation_vertical, translation_horizontal)).

Definition glass_overlay (glass : string) : M imgref :=
  let! placed := placement glass in
  run overlay placed.1 placed.2.1 placed.2.2 in
  ret TheImage.

(** *** GENDER, lines 127 to 138 *)

(** Lines 129 and 131. *)
Definition decodeGender (output : list Z) : result (Z * string) :=
  let? age := index output 0 in
  let? i1 := index output 1 in
  let? gender_type := index GENDER_TYPES i1 in
  Ok (age, gender_type).

Definition gender : M imgref :=
  let! output := ints in
  let! decoded := of_result (decodeGender output) in
  let! image := get_image in
  let scaler := scaler_of image 5000 in
  run draw (PutText (str decoded.1 +:+ "," +:+ decoded.2 +:+ " ")
                    (20, Z.of_nat (Np.height image) - 10) FONT_HERSHEY_SIMPLEX
                    (float_of_int (2 * scaler)) (Pixel 0 255 0) (3 * scaler)) in
  ret TheImage.

(** *** The dispatcher, lines 59 to 141

    [image] and [output] are the two references of the heap. *)

Definition UNKNOWN_WARNING : string :=
  "Unknown model type, unable to create output image.".

Definition create_output_image (model_type : string) (glass : string)
  : M imgref :=
  if String.eqb model_type "POSE" then pose
  else if String.eqb model_type "TEXT" then text
  else if String.eqb model_type "CAR_META" then car_meta
  else if String.eqb model_type "FACIAL" then facial
  else if String.eqb model_type "GLASS" then glass_overlay glass
  else if String.eqb model_type "GENDER" then gender
  else
    run print UNKNOWN_WARNING in
    ret TheImage.

(** *** The rendering step of [perform_inference], lines 171 to 177 *)

Definition render_step (t : string) (g : string) : M imgref :=
  λ w, match create_output_image t g w with
       | (Ok output_image, w') => (run print "Success" in ret output_image) w'
       | (Raise _, w') => (run print "Error" in ret TheImage) w'
       end.

(** Lines 171 to 181 of [perform_inference]: the rendering step, then
    [cv2.imwrite(path, output_image)]; the value is the pair handed to
    [imwrite], the array being the one [output_image] refers to. *)
Definition output_file (t : string) : string := "outputs/" +:+ t +:+ "-output_1.png".

Definition render_and_save (t : string) (g : string) : M (string * image) :=
  let! output_image := render_step t g in
  let! image := get_image in
  ret (output_file t,
       match output_image with TheImage => image | Fresh a => a end).

End Program.

(** ** A concrete OpenCV and power function for running the model

    Decoding is a table of files.  A filled circle paints the pixels of
    the disc; outlines and glyphs are not rasterised, so that the runs say
    nothing of the pixels a text leaves.  Resizing samples the nearest
    source cell, which returns the asset itself when the size is its own.
    The power function knows the exponent one half only: it returns the
    root of a perfect square, and the correctly rounded square root
    otherwise, from which a C library may differ in the last place; the
    runs take it at perfect squares. *)

Module Reference.

Definition in_disc (center : Z * Z) (radius x y : Z) : bool :=
  (x - center.1) ^ 2 + (y - center.2) ^ 2 <=? radius ^ 2.

Definition paint_call (c : cv2_call) (a : image) : image :=
  match c with
  | Circle center radius color thickness =>
      if thickness <? 0 then
        imap (λ y row,
                imap (λ x p, if in_disc center radius (Z.of_nat x) (Z.of_nat y)
                             then color else p) row) a
      else a
  | PutText _ _ _ _ _ _ => a
  end.

Definition nearest (src : asset) (size : Z * Z) : option asset :=
  let (w, h) := size in
  if (0 <? w) && (0 <? h) then
    let rows := Np.height src in
    let cols := Np.width src in
    Some ((λ i, (λ j, default (Pixel4 0 0 0 0)
                        (src !! (i * rows / Z.to_nat h)%nat
                           ≫= (.!! (j * cols / Z.to_nat w)%nat)))
                  <$> seq 0 (Z.to_nat w))
            <$> seq 0 (Z.to_nat h))
  else None.

Fixpoint lookup_file (files : list (string * asset)) (path : string)
  : option asset :=
  match files with
  | [] => None
  | (name, a) :: files' =>
      if String.eqb name path then Some a else lookup_file files' path
  end.

Definition root (x : float) : float :=
  match int_of_float x with
  | Some n =>
      if (0 <=? n) && (Z.sqrt n * Z.sqrt n =? n)
         && PrimFloat.Leibniz.eqb (float_of_int n) x
      then float_of_int (Z.sqrt n)
      else PrimFloat.sqrt x
  | None => PrimFloat.sqrt x
  end.

Definition power (x y : float) : float :=
  if PrimFloat.Leibniz.eqb y 0.5 then root x else nan.

Definition cv2 (files : list (string * asset)) : Cv2 :=
  {| imread := lookup_file files; resize := nearest; paint := paint_call;
     pow := power |}.

End Reference.

(** ** Runs of the model on small inputs *)

Module Runs.

Definition black : pixel := Pixel 0 0 0.

(** Seventy landmark coordinates, all zero but the listed ones. *)
Definition landmarks (set : list (nat * Z)) : list Z :=
  foldr (λ kv l, <[kv.1 := kv.2]> l) (replicate 70 0) set.

End Runs.

(** ** Vocabulary of the statements *)

(** [m[i][j]], when both indices are in range. *)
Definition cell {A} (m : list (list A)) (i j : nat) : option A :=
  m !! i ≫= (.!! j).

(** Whether cell [(i, j)] of a probability map is above the cutoff. *)
Definition above (i j : nat) (m : list (list float)) : bool :=
  match cell m i j with
  | Some x => (0.5 <? x)%float
  | None => false
  end.

(** How many maps of a stack detect something at [(i, j)]. *)
Definition detections (view : list (list (list float))) (i j : nat) : Z :=
  Z.of_nat (length (List.filter (above i j) view)).

(** Every sample of an image is an 8-bit value. *)
Definition in_sample_range (a : image) : Prop :=
  Forall (Forall (λ p, 0 ≤ blue p ≤ 255 ∧ 0 ≤ green p ≤ 255 ∧ 0 ≤ red p ≤ 255)) a.

(** [m] never changes the component [proj] of the heap, whatever it
    returns or raises. *)
Definition preserved {X A} (proj : world → X) (m : M A) : Prop :=
  ∀ w, proj (m w).2 = proj w.

(** The tags that select a branch. *)
Definition MODEL_TYPES : list string :=
  ["POSE"; "TEXT"; "CAR_META"; "FACIAL"; "GLASS"; "GENDER"]%string.

(** The outcome of lines 139 to 141: the warning is printed and the
    caller's own buffer comes back, untouched. *)
Definition fallback (w : world) : result imgref * world :=
  (Ok TheImage,
   World (image_buf w) (output_buf w) (stdout w ++ [UNKNOWN_WARNING]) (drawn w)).

(** The entry an index reaches in a table: itself from the front, or
    counted from the end when negative; nothing beyond either end. *)
Definition label {A} (table : list A) (i : Z) : option A :=
  let n := Z.of_nat (length table) in
  if (- n <=? i) && (i <? n) then table !! Z.to_nat (i mod n) else None.

(** The heap after the drawing calls [cs], in order, on the image. *)
Definition draw_all `{cv : Cv2} (cs : list cv2_call) (w : world) : world :=
  World (foldl (λ a c, paint c a) (image_buf w) cs) (output_buf w) (stdout w)
        (drawn w ++ cs).

(** The marker of landmark [k] at point [p]: a filled disc of radius 4
    and the label "p" followed by [k], anchored at the same point. *)
Definition marker (k : nat) (p : Z * Z) : list cv2_call :=
  [Circle p 4 (Pixel 255 0 0) (-1);
   PutText ("p" +:+ str (Z.of_nat k)) p FONT_HERSHEY_SIMPLEX 0.7%float
           (Pixel 255 255 255) 2].

(** Landmark [k] of a flat coordinate list. *)
Definition landmark (pts : list Z) (k : nat) : Z * Z :=
  (nth (2 * k) pts 0, nth (2 * k + 1) pts 0).

(** The markers of landmarks [first], ..., [first + n - 1]. *)
Definition markers (pts : list Z) (first n : nat) : list cv2_call :=
  flat_map (λ k, marker k (landmark pts k)) (seq first n).

(** Both coordinates of landmark [k] are C [int]s. *)
Definition landmark_fits (pts : list Z) (k : nat) : bool :=
  fits_c_int (landmark pts k).1 && fits_c_int (landmark pts k).2.

(** How many of [first], [first + 1], ..., [first + n - 1] satisfy [P]
    before the first that does not. *)
Fixpoint leading (P : nat → bool) (first n : nat) : nat :=
  match n with
  | O => O
  | S n' => if P first then S (leading P (S first) n') else O
  end.

(** The landmarks FACIAL gets to draw: the complete pairs before the first
    one OpenCV refuses. *)
Definition accepted (pts : list Z) : nat :=
  leading (landmark_fits pts) 0 (length pts / 2).

(** How FACIAL ends on a flat list: refused at a pair, or at the end of the
    list, where a lone last coordinate is an [IndexError]. *)
Definition facial_outcome (pts : list Z) : result imgref :=
  if (accepted pts <? length pts / 2)%nat then Raise Cv2Error
  else if Nat.even (length pts) then Ok TheImage
  else Raise IndexError.






(** The indices NumPy accepts on an axis of length [n]. *)
Definition within (n : nat) (k : Z) : Prop := - Z.of_nat n ≤ k < Z.of_nat n.

#[export] Instance within_dec n k : Decision (within n k).
Proof. unfold within. apply _. Defined.

(** Cell [(i, j)] of the asset [glasses], placed [tv] rows down and [th]
    columns right on an [h] × [w] image, is transparent or has a target
    NumPy accepts. *)
Definition lands (glasses : asset) (tv th : Z) (h w : nat) (i j : nat) : Prop :=
  ∀ px, cell glasses i j = Some px → alpha4 px ≠ 0 →
        within h (Z.of_nat i + tv) ∧ within w (Z.of_nat j + th).

(** Every pixel of [a] is the one [orig] has there or the colour of an
    opaque asset cell whose target, counted from the far edge when
    negative, is there. *)
Definition overlaid (glasses : asset) (tv th : Z) (h w : nat)
    (orig a : image) : Prop :=
  ∀ r c p, cell a r c = Some p →
    cell orig r c = Some p
    ∨ ∃ i j px, cell glasses i j = Some px ∧ alpha4 px ≠ 0
                ∧ Z.of_nat r = (Z.of_nat i + tv) mod Z.of_nat h
                ∧ Z.of_nat c = (Z.of_nat j + th) mod Z.of_nat w
                ∧ p = drop_alpha px.

(** What the overlay loop maintains from the heap [start] on. *)
Definition overlay_inv (glasses : asset) (tv th : Z) (h w : nat)
    (start x : world) : Prop :=
  Np.has_shape h w (image_buf x)
  ∧ overlaid glasses tv th h w (image_buf start) (image_buf x)
  ∧ output_buf x = output_buf start
  ∧ stdout x = stdout start
  ∧ drawn x = drawn start.

(** Two heaps hold the same image and the same output. *)
Definition same_objects (x y : world) : Prop :=
  image_buf x = image_buf y ∧ output_buf x = output_buf y.

(** On such heaps [m] gives the same result and leaves the same objects. *)
Definition repeatable {A} (m : M A) : Prop :=
  ∀ x y, same_objects x y →
         (m x).1 = (m y).1 ∧ same_objects (m x).2 (m y).2.

(** The landmark a label names: the decimal number after the letter p. *)
Definition landmark_of_label (text : string) : option nat :=
  match text with
  | String "p"%char digits =>
      (λ d, Z.to_nat (Z.of_int d)) <$> NilZero.int_of_string digits
  | _ => None
  end.

(** The pixel at row [r], column [c] once the asset has been laid over an
    image holding [p] there, its top-left corner at row [tv], column [th]:
    the colour of the asset cell above it when there is one and it is not
    transparent, [p] otherwise.  [seen] restricts the asset to some of its
    cells. *)
Definition overlay_pixel (seen : nat → nat → bool) (glasses : asset)
    (tv th : Z) (r c : nat) (p : pixel) : pixel :=
  let i := Z.to_nat (Z.of_nat r - tv) in
  let j := Z.to_nat (Z.of_nat c - th) in
  match cell glasses i j with
  | Some px =>
      if (tv <=? Z.of_nat r) && (th <=? Z.of_nat c) && negb (alpha4 px =? 0)
         && seen i j
      then drop_alpha px else p
  | None => p
  end.

(** The asset cells the loop has gone through when it is about to visit
    cell [(i0, j0)]. *)
Definition before (i0 j0 : nat) (i j : nat) : bool :=
  (i <? i0)%nat || ((i =? i0)%nat && (j <? j0)%nat).

(** The heap when the loop of lines 122 to 125, started on [start], is
    about to visit asset cell [(i, j)]. *)
Definition overlaid_up_to (glasses : asset) (tv th : Z) (h w : nat)
    (start : world) (i j : nat) (y : world) : Prop :=
  Np.has_shape h w (image_buf y)
  ∧ (∀ r c, cell (image_buf y) r c
            = overlay_pixel (before i j) glasses tv th r c
                <$> cell (image_buf start) r c)
  ∧ output_buf y = output_buf start
  ∧ stdout y = stdout start
  ∧ drawn y = drawn start.

(** ** Reading cells *)

Lemma cell_Some {A} (m : list (list A)) i j x :
  cell m i j = Some x ↔ ∃ row, m !! i = Some row ∧ row !! j = Some x.
Proof.
  unfold cell. split.
  - destruct (m !! i) as [row|] eqn:E; simpl; [eauto | discriminate].
  - intros (row & -> & H). exact H.
Qed.

Lemma cell_fmap {A B} (f : A → B) (m : list (list A)) i j :
  cell ((λ row : list A, f <$> row) <$> m) i j = f <$> cell m i j.
Proof.
  unfold cell. rewrite list_lookup_fmap.
  destruct (m !! i) as [row|]; simpl; [apply list_lookup_fmap | reflexivity].
Qed.

Lemma cell_in_shape {A} h w (m : list (list A)) i j :
  Np.has_shape h w m → (i < h)%nat → (j < w)%nat → is_Some (cell m i j).
Proof.
  intros [Hh Hw] Hi Hj.
  destruct (lookup_lt_is_Some_2 m i) as [row Hrow]; [lia|].
  assert (length row = w) as Hlen
    by (eapply (proj1 (Forall_lookup _ _) Hw); eassumption).
  destruct (lookup_lt_is_Some_2 row j) as [x Hx]; [lia|].
  exists x. apply cell_Some. eauto.
Qed.

Lemma cell_zeros h w i j :
  (i < h)%nat → (j < w)%nat → cell (Np.zeros h w) i j = Some 0.
Proof.
  intros Hi Hj. apply cell_Some. exists (replicate w 0). split.
  - apply lookup_replicate_2, Hi.
  - apply lookup_replicate_2, Hj.
Qed.

Lemma cell_add2 a b i j x y :
  cell a i j = Some x → cell b i j = Some y →
  cell (Np.add2 a b) i j = Some (x + y).
Proof.
  intros (ra & Ha & Hx)%cell_Some (rb & Hb & Hy)%cell_Some.
  apply cell_Some. exists (zip_with Z.add ra rb). split.
  - unfold Np.add2. rewrite lookup_zip_with, Ha, Hb. reflexivity.
  - rewrite lookup_zip_with, Hx, Hy. reflexivity.
Qed.

(** ** Thresholding (lines 66 to 71 and 79) *)

Lemma threshold_cases x :
  (threshold x = 255 ∧ (0.5 <? x)%float = true)
  ∨ (threshold x = 0 ∧ (0.5 <? x)%float = false).
Proof. unfold threshold. destruct (0.5 <? x)%float; auto. Qed.

Lemma held_stored m :
  (λ row : list float, (λ x, default 0 (int_of_float x)) <$> row)
    <$> ((λ row : list Z, float_of_int <$> row) <$> np_where_gt m)
  = np_where_gt m.
Proof.
  unfold np_where_gt. rewrite <- !list_fmap_compose.
  apply list_fmap_ext. intros _ row _. simpl.
  rewrite <- !list_fmap_compose. apply list_fmap_ext. intros _ x _. simpl.
  unfold threshold. destruct (0.5 <? x)%float; vm_compute; reflexivity.
Qed.

Lemma overwrite_all {A} (F : A → A) (view : list A) n k :
  (k + n = length view)%nat →
  foldl (λ v c, match v !! c with
                | Some m => <[c := F m]> v
                | None => v
                end) ((F <$> take k view) ++ drop k view) (seq k n)
  = F <$> view.
Proof.
  revert k. induction n as [|n IH]; intros k Hk; simpl.
  - rewrite take_ge, drop_ge by lia. apply app_nil_r.
  - assert (length (F <$> take k view) = k) as Hlen
      by (rewrite length_fmap, length_take; lia).
    destruct (lookup_lt_is_Some_2 view k) as [m Hm]; [lia|].
    rewrite lookup_app_r by lia. rewrite Hlen, Nat.sub_diag, lookup_drop, Nat.add_0_r, Hm.
    replace (<[k:=F m]> ((F <$> take k view) ++ drop k view))
      with ((F <$> take (S k) view) ++ drop (S k) view).
    + apply IH. lia.
    + rewrite insert_app_r_alt by lia. rewrite Hlen, Nat.sub_diag.
      rewrite (drop_S _ _ _ Hm). simpl.
      rewrite (take_S_r _ _ _ Hm), fmap_app. simpl.
      rewrite <- app_assoc. reflexivity.
Qed.

Lemma threshold_in_place_fmap view :
  threshold_in_place view = (λ m, stored (np_where_gt m)) <$> view.
Proof.
  unfold threshold_in_place.
  exact (overwrite_all (λ m, stored (np_where_gt m)) view (length view) 0 eq_refl).
Qed.

Lemma pose_map_sum s :
  pose_map s
  = Np.sum_axis0 (st_h s) (st_w s) (np_where_gt <$> removelast (st_chans s)).
Proof.
  unfold pose_map. rewrite threshold_in_place_fmap, <- list_fmap_compose.
  f_equal. apply list_fmap_ext. intros _ m _. simpl. apply held_stored.
Qed.

Lemma cell_sum_thresholded (ms : list (list (list float))) i j :
  ∀ acc x,
    cell acc i j = Some x →
    Forall (λ m, is_Some (cell m i j)) ms →
    cell (foldl Np.add2 acc (np_where_gt <$> ms)) i j
    = Some (x + 255 * detections ms i j).
Proof.
  unfold detections.
  induction ms as [|m ms IH]; intros acc x Hacc Hms.
  - simpl. rewrite Hacc. f_equal. lia.
  - rewrite fmap_cons. cbn [foldl List.filter].
    inversion Hms as [|? ? [v Hv] Hrest]; subst.
    assert (cell (np_where_gt m) i j = Some (threshold v)) as Hm
      by (unfold np_where_gt; rewrite cell_fmap, Hv; reflexivity).
    rewrite (IH _ _ (cell_add2 _ _ _ _ _ _ Hacc Hm) Hrest).
    f_equal. unfold above at 2. rewrite Hv. unfold threshold.
    destruct (0.5 <? v)%float; simpl length; lia.
Qed.

Lemma Forall_removelast {A} (P : A → Prop) (l : list A) :
  Forall P l → Forall P (removelast l).
Proof. rewrite removelast_firstn_len. apply Forall_take. Qed.

Lemma dispatch_pose `{cv : Cv2} g : create_output_image "POSE" g = pose.
Proof. reflexivity. Qed.

Lemma dispatch_text `{cv : Cv2} g : create_output_image "TEXT" g = text.
Proof. reflexivity. Qed.

(** C1. Thresholding maps a value to 255 exactly when it is strictly above
    0.5 and to 0 otherwise, 0.5 itself giving 0.  POSE drops the last
    channel, thresholds every remaining one and sums them cell by cell, so
    a cell of the summed map is 255 times the number of remaining channels
    above the cutoff there; TEXT thresholds channel 1 alone.  The map so
    obtained is what each branch turns into a mask and adds to the image. *)
Theorem threshold_stage `{cv : Cv2} (s : stack) (i j : nat) (g : string) (w : world) :
  output_buf w = Heatmaps s →
  Forall (Np.has_shape (st_h s) (st_w s)) (st_chans s) →
  (i < st_h s)%nat → (j < st_w s)%nat →
  (∀ x, (threshold x = 255 ↔ (0.5 <? x)%float = true)
        ∧ (threshold x = 0 ↔ (0.5 <? x)%float = false))
  ∧ threshold 0.5 = 0
  ∧ (∀ m, cell (np_where_gt m) i j = threshold <$> cell m i j)
  ∧ cell (pose_map s) i j
    = Some (255 * detections (removelast (st_chans s)) i j)
  ∧ (∃ w', create_output_image "POSE" g w = add_mask (pose_map s) w'
           ∧ image_buf w' = image_buf w)
  ∧ create_output_image "TEXT" g w
    = match index (st_chans s) 1 with
      | Ok m => add_mask (np_where_gt m) w
      | Raise e => (Raise e, w)
      end.
Proof.
  intros Hout Hshape Hi Hj. split; [|split; [|split; [|split; [|split]]]].
  - intros x. destruct (threshold_cases x) as [[-> ->]|[-> ->]];
      repeat split; intros; congruence.
  - reflexivity.
  - intros m. unfold np_where_gt. apply cell_fmap.
  - rewrite pose_map_sum. unfold Np.sum_axis0.
    rewrite (cell_sum_thresholded _ i j _ 0 (cell_zeros _ _ _ _ Hi Hj)).
    + f_equal.
    + apply Forall_removelast. eapply Forall_impl; [exact Hshape|].
      intros m Hm. eapply cell_in_shape; eassumption.
  - rewrite dispatch_pose. unfold pose, heatmaps, get_output, bind at 1 2.
    rewrite Hout. unfold ret, set_output, bind. simpl. eauto.
  - rewrite dispatch_text. unfold text, text_map, heatmaps, get_output, bind at 1 2.
    rewrite Hout. unfold ret at 1. unfold bind, of_result, and_then.
    destruct (index (st_chans s) 1); reflexivity.
Qed.

Lemma threshold_stage_witness :
  let s := Stack 1 2 [[[0.1; 0.7]]; [[0.9; 0.8]]; [[0.9; 0.9]]]%float in
  let w := World [[Pixel 10 200 30; Pixel 0 0 0]] (Heatmaps s) [] [] in
  cell (pose_map s) 0 1 = Some 510
  ∧ (create_output_image (cv := Reference.cv2 []) "TEXT" "" w).1
    = Ok (Fresh [[Pixel 10 455 30; Pixel 0 255 0]]).
Proof.
  intros s w.
  assert (Forall (Np.has_shape (st_h s) (st_w s)) (st_chans s)) as Hshape
    by (repeat constructor).
  pose proof (threshold_stage (cv := Reference.cv2 []) s 0 1 "" w eq_refl Hshape
                ltac:(simpl; lia) ltac:(simpl; lia)) as (_ & _ & _ & Hpose & _ & Htext).
  split.
  - exact Hpose.
  - rewrite Htext. reflexivity.
Defined.

(** ** Compositing the mask (lines 46 to 56, 72 to 76, 80 to 84) *)

Lemma mapM_zip_total {A B C} (f : A → B → option C) (g : A → B → C) la lb :
  Forall2 (λ a b, f a b = Some (g a b)) la lb →
  mapM (uncurry f) (zip la lb) = Some (zip_with g la lb).
Proof.
  induction 1 as [|a b la lb Hab _ IH]; [reflexivity|].
  cbn. rewrite Hab. cbn. rewrite IH. reflexivity.
Qed.

Lemma broadcast_same {A B C} (f : A → B → option C) (g : A → B → C) la lb :
  Forall2 (λ a b, f a b = Some (g a b)) la lb →
  Np.broadcast f la lb = Some (zip_with g la lb).
Proof.
  intros H. unfold Np.broadcast.
  rewrite decide_True by (eapply Forall2_length; eassumption).
  apply mapM_zip_total, H.
Qed.

Lemma add_same_shape h w (a b : image) :
  Np.has_shape h w a → Np.has_shape h w b →
  Np.add a b = Some (zip_with (zip_with Np.add_px) a b).
Proof.
  intros [Ha Hwa] [Hb Hwb]. unfold Np.add.
  apply broadcast_same. apply Forall2_same_length_lookup_2.
  - congruence.
  - intros i ra rb Hra Hrb. apply broadcast_same.
    apply Forall2_same_length_lookup_2; [|reflexivity].
    rewrite (Forall_lookup_1 _ _ _ _ Hwa Hra), (Forall_lookup_1 _ _ _ _ Hwb Hrb).
    reflexivity.
Qed.

Lemma get_mask_shape h w (m : list (list Z)) :
  Np.has_shape h w m → Np.has_shape h w (get_mask m).
Proof.
  intros [Hh Hw]. split.
  - unfold get_mask. rewrite length_fmap. exact Hh.
  - unfold get_mask. apply Forall_fmap. eapply Forall_impl; [exact Hw|].
    intros row Hrow. simpl. rewrite length_fmap. exact Hrow.
Qed.

Lemma zip_with_shape {A B C} (f : A → B → C) h w a b :
  Np.has_shape h w a → Np.has_shape h w b →
  Np.has_shape h w (zip_with (zip_with f) a b).
Proof.
  intros [Ha Hwa] [Hb Hwb]. split.
  - rewrite length_zip_with; lia.
  - apply Forall_lookup_2. intros i row Hrow.
    apply lookup_zip_with_Some in Hrow as (ra & rb & -> & Hra & Hrb).
    rewrite length_zip_with.
    rewrite (Forall_lookup_1 _ _ _ _ Hwa Hra), (Forall_lookup_1 _ _ _ _ Hwb Hrb).
    lia.
Qed.

Lemma cell_zip_with {A B C} (f : A → B → C) a b i j x y :
  cell a i j = Some x → cell b i j = Some y →
  cell (zip_with (zip_with f) a b) i j = Some (f x y).
Proof.
  intros (ra & Ha & Hx)%cell_Some (rb & Hb & Hy)%cell_Some.
  apply cell_Some. exists (zip_with f ra rb). split.
  - rewrite lookup_zip_with, Ha, Hb. reflexivity.
  - rewrite lookup_zip_with, Hx, Hy. reflexivity.
Qed.

(** C2, as the code has it.  On an image and a map of one shape, adding the
    mask of the map returns a new array of that shape in which every pixel
    keeps its blue and red samples and has the map's value added to its
    green sample: where the map is 0 the pixel is the input's, where it is
    255 the green sample is the input's plus 255, which is not brought back
    into the 8-bit range. *)
Theorem mask_composite (img : image) (m : list (list Z)) (h w : nat) (wd : world) :
  image_buf wd = img →
  Np.has_shape h w img → Np.has_shape h w m →
  ∃ res,
    add_mask m wd = (Ok (Fresh res), wd)
    ∧ Np.has_shape h w res
    ∧ ∀ i j p v,
        cell img i j = Some p → cell m i j = Some v →
        ∃ q, cell res i j = Some q
             ∧ blue q = blue p ∧ red q = red p ∧ green q = green p + v
             ∧ (v = 0 → q = p)
             ∧ (v = 255 → green q ≠ green p ∧ (0 < green p → 255 < green q)).
Proof.
  intros Himg Hi Hm.
  pose proof (get_mask_shape _ _ _ Hm) as Hmask.
  exists (zip_with (zip_with Np.add_px) img (get_mask m)). split; [|split].
  - unfold add_mask, get_image, bind at 1. rewrite Himg.
    rewrite (add_same_shape _ _ _ _ Hi Hmask). reflexivity.
  - apply zip_with_shape; assumption.
  - intros i j p v Hp Hv.
    assert (cell (get_mask m) i j = Some (Pixel 0 v 0)) as Hmv
      by (unfold get_mask; rewrite cell_fmap, Hv; reflexivity).
    exists (Np.add_px p (Pixel 0 v 0)). split.
    + apply cell_zip_with; assumption.
    + destruct p as [b gr r]. unfold Np.add_px. simpl.
      split; [lia|]. split; [lia|]. split; [lia|]. split.
      * intros ->. f_equal; lia.
      * intros ->. lia.
Qed.

Lemma mask_composite_witness :
  let img := [[Pixel 10 200 30; Pixel 1 2 3]] in
  let wd := World img (Ints []) [] [] in
  ∃ res, add_mask [[255; 0]] wd = (Ok (Fresh res), wd)
         ∧ cell res 0 0 = Some (Pixel 10 455 30)
         ∧ cell res 0 1 = Some (Pixel 1 2 3).
Proof.
  intros img wd.
  destruct (mask_composite img [[255; 0]] 1 2 wd eq_refl
              ltac:(repeat constructor) ltac:(repeat constructor))
    as (res & Hrun & _ & Hcells).
  exists res. split; [exact Hrun|].
  injection Hrun as <-. split; reflexivity.
Defined.

(** C2, as stated, fails: TEXT on a one-pixel image whose green sample is
    200, with a probability of 0.9 in channel 1, returns a green sample of
    455. *)
Lemma composite_leaves_sample_range :
  let img := [[Pixel 10 200 30]] in
  let w := World img (Heatmaps (Stack 1 1 [[[0.1]]; [[0.9]]]%float)) [] [] in
  in_sample_range img
  ∧ np_where_gt [[0.9%float]] = [[255]]
  ∧ (create_output_image (cv := Reference.cv2 []) "TEXT" "" w).1
    = Ok (Fresh [[Pixel 10 455 30]])
  ∧ ¬ in_sample_range [[Pixel 10 455 30]].
Proof.
  repeat split.
  - repeat constructor; simpl; lia.
  - intros H. apply Forall_cons_1 in H as [H _].
    apply Forall_cons_1 in H as [(_ & [_ H] & _) _]. simpl in H. lia.
Qed.

(** ** What a computation leaves alone *)

Section Preserved.

Context {X : Type} (proj : world → X).

Lemma preserved_ret {A} (a : A) : preserved proj (ret a).
Proof. intros w. reflexivity. Qed.

Lemma preserved_raise {A} e : preserved proj (raise (A := A) e).
Proof. intros w. reflexivity. Qed.

Lemma preserved_of_result {A} (r : result A) : preserved proj (of_result r).
Proof. intros w. reflexivity. Qed.

Lemma preserved_of_option {A} e (o : option A) : preserved proj (of_option e o).
Proof. intros w. destruct o; reflexivity. Qed.

Lemma preserved_get_image : preserved proj get_image.
Proof. intros w. reflexivity. Qed.

Lemma preserved_get_output : preserved proj get_output.
Proof. intros w. reflexivity. Qed.

Lemma preserved_bind {A B} (m : M A) (k : A → M B) :
  preserved proj m → (∀ a, preserved proj (k a)) → preserved proj (bind m k).
Proof.
  intros Hm Hk w. unfold bind. specialize (Hm w).
  destruct (m w) as [[a|e] w']; simpl in *; [|exact Hm].
  rewrite Hk. exact Hm.
Qed.

Lemma preserved_for_each {A} (xs : list A) (body : A → M unit) :
  (∀ x, preserved proj (body x)) → preserved proj (for_each xs body).
Proof.
  intros Hbody. induction xs as [|x xs IH]; simpl.
  - apply preserved_ret.
  - apply preserved_bind; [apply Hbody | intros _; exact IH].
Qed.

End Preserved.

Create HintDb preserve.
#[export] Hint Resolve preserved_ret preserved_raise preserved_of_result
  preserved_of_option preserved_get_image preserved_get_output : preserve.

Ltac preserve :=
  repeat first
    [ apply preserved_bind; [|intro]
    | apply preserved_for_each; intro
    | match goal with
      | |- preserved _ (if ?c then _ else _) => destruct c
      | |- preserved _ (match ?x with _ => _ end) => destruct x
      end
    | solve [auto with preserve] ].

Lemma stdout_set_image a : preserved stdout (set_image a).
Proof. intros w. reflexivity. Qed.

Lemma stdout_set_output o : preserved stdout (set_output o).
Proof. intros w. reflexivity. Qed.

Lemma stdout_draw `{cv : Cv2} c : preserved stdout (draw c).
Proof. intros w. reflexivity. Qed.

Lemma image_set_output o : preserved image_buf (set_output o).
Proof. intros w. reflexivity. Qed.

Lemma image_print line : preserved image_buf (print line).
Proof. intros w. reflexivity. Qed.

#[export] Hint Resolve stdout_set_image stdout_set_output stdout_draw
  image_set_output image_print : preserve.

Section Dispatch.

Context {cv : Cv2}.

Lemma stdout_pose : preserved stdout pose.
Proof. unfold pose, heatmaps, add_mask. preserve. Qed.

Lemma stdout_text : preserved stdout text.
Proof. unfold text, heatmaps, add_mask. preserve. Qed.

Lemma stdout_car_meta : preserved stdout car_meta.
Proof. unfold car_meta, ints. preserve. Qed.

Lemma stdout_gender : preserved stdout gender.
Proof. unfold gender, ints. preserve. Qed.

Lemma stdout_facial : preserved stdout facial.
Proof. unfold facial, facial_step, cv2_point, ints. preserve. Qed.

Lemma stdout_glass_overlay g : preserved stdout (glass_overlay g).
Proof.
  unfold glass_overlay, placement, resized_size, overlay, overlay_cell, ints.
  preserve.
Qed.

Lemma image_pose : preserved image_buf pose.
Proof. unfold pose, heatmaps, add_mask. preserve. Qed.

Lemma image_text : preserved image_buf text.
Proof. unfold text, heatmaps, add_mask. preserve. Qed.

End Dispatch.

(** ** The dispatcher and its fallback (lines 64 to 141) *)

Lemma not_model_type tag :
  tag ∉ MODEL_TYPES ↔
  String.eqb tag "POSE" = false ∧ String.eqb tag "TEXT" = false
  ∧ String.eqb tag "CAR_META" = false ∧ String.eqb tag "FACIAL" = false
  ∧ String.eqb tag "GLASS" = false ∧ String.eqb tag "GENDER" = false.
Proof.
  unfold MODEL_TYPES. rewrite !not_elem_of_cons, !String.eqb_neq.
  pose proof (not_elem_of_nil tag). tauto.
Qed.

Lemma fallback_taken `{cv : Cv2} tag g w :
  tag ∉ MODEL_TYPES → create_output_image tag g w = fallback w.
Proof.
  intros (H1 & H2 & H3 & H4 & H5 & H6)%not_model_type.
  unfold create_output_image. rewrite H1, H2, H3, H4, H5, H6. reflexivity.
Qed.

Lemma branch_keeps_stdout `{cv : Cv2} tag g w :
  tag ∈ MODEL_TYPES → stdout (create_output_image tag g w).2 = stdout w.
Proof.
  unfold MODEL_TYPES. rewrite !elem_of_cons.
  intros [->|[->|[->|[->|[->|[->|H]]]]]].
  - apply stdout_pose.
  - apply stdout_text.
  - apply stdout_car_meta.
  - apply stdout_facial.
  - apply (stdout_glass_overlay g).
  - apply stdout_gender.
  - apply elem_of_nil in H. destruct H.
Qed.

(** C3. For a tag that is none of the six model types the dispatcher prints
    the warning, raises nothing and returns the caller's image buffer
    itself, whose pixels it has not touched. *)
Theorem unknown_tag_passthrough `{cv : Cv2} (tag g : string) (w : world) :
  tag ∉ MODEL_TYPES →
  let r := create_output_image tag g w in
  r.1 = Ok TheImage
  ∧ image_buf r.2 = image_buf w
  ∧ output_buf r.2 = output_buf w
  ∧ drawn r.2 = drawn w
  ∧ stdout r.2 = stdout w ++ [UNKNOWN_WARNING].
Proof.
  intros Htag r. subst r. rewrite (fallback_taken _ _ _ Htag).
  repeat split.
Qed.

Lemma unknown_tag_passthrough_witness :
  let w := World [[Pixel 1 2 3]] (Ints [4; 5]) [] [] in
  let r := create_output_image (cv := Reference.cv2 []) "UNKNOWN_TAG" "" w in
  ("UNKNOWN_TAG"%string ∉ MODEL_TYPES)
  ∧ r.1 = Ok TheImage ∧ image_buf r.2 = [[Pixel 1 2 3]].
Proof.
  intros w r.
  assert ("UNKNOWN_TAG"%string ∉ MODEL_TYPES) as Htag
    by (apply not_model_type; repeat split).
  split; [exact Htag|].
  destruct (unknown_tag_passthrough (cv := Reference.cv2 []) "UNKNOWN_TAG" "" w Htag)
    as (Hr & Himg & _).
  split; [exact Hr | exact Himg].
Defined.

(** C10. The dispatcher compares the tag with the six names character for
    character: it takes the fallback exactly when the tag is none of them,
    so a tag in another case or with surrounding blanks is unknown. *)
Theorem dispatch_exact_match `{cv : Cv2} (tag g : string) (w : world) :
  (create_output_image tag g w = fallback w ↔ tag ∉ MODEL_TYPES)
  ∧ Forall (λ other, create_output_image other g w = fallback w)
      ["pose"; "Pose"; " POSE"; "POSE "; "car_meta"; "Glass"; ""]%string.
Proof.
  split.
  - split; [|apply fallback_taken].
    intros Hrun Htag.
    pose proof (branch_keeps_stdout tag g w Htag) as Hout.
    rewrite Hrun in Hout. simpl in Hout.
    apply (f_equal length) in Hout. rewrite length_app in Hout. simpl in Hout. lia.
  - repeat constructor.
Qed.

(** ** Indexing *)

Lemma index_lookup {A} (l : list A) (k : nat) x :
  l !! k = Some x → index l (Z.of_nat k) = Ok x.
Proof.
  intros H. pose proof (lookup_lt_Some _ _ _ H) as Hk.
  unfold index, norm_index.
  replace (0 <=? Z.of_nat k) with true by (symmetry; apply Z.leb_le; lia).
  replace (Z.of_nat k <? Z.of_nat (length l)) with true
    by (symmetry; apply Z.ltb_lt; lia).
  simpl. rewrite Nat2Z.id, H. reflexivity.
Qed.

Lemma index_beyond {A} (l : list A) (k : nat) :
  l !! k = None → index l (Z.of_nat k) = Raise IndexError.
Proof.
  intros H. apply lookup_ge_None in H.
  unfold index, norm_index.
  replace (Z.of_nat k <? Z.of_nat (length l)) with false
    by (symmetry; apply Z.ltb_ge; lia).
  replace (Z.of_nat k <? 0) with false by (symmetry; apply Z.ltb_ge; lia).
  rewrite !andb_false_r. reflexivity.
Qed.

Lemma index_label {A} (l : list A) i :
  index l i = match label l i with Some x => Ok x | None => Raise IndexError end.
Proof.
  unfold index, norm_index, label.
  set (n := Z.of_nat (length l)).
  destruct (Z.leb_spec 0 i), (Z.ltb_spec i n), (Z.leb_spec (- n) i),
    (Z.ltb_spec i 0); simpl; try lia; try reflexivity.
  - rewrite Z.mod_small by lia. destruct (l !! Z.to_nat i); reflexivity.
  - replace (i mod n) with (i + n)
      by (rewrite <- (Z.mod_small (i + n) n) by lia;
          rewrite <- (Z_mod_plus_full i 1 n); f_equal; lia).
    destruct (l !! Z.to_nat (i + n)); reflexivity.
Qed.

Lemma label_None {A} (table : list A) i :
  label table i = None
  ↔ i < - Z.of_nat (length table) ∨ Z.of_nat (length table) ≤ i.
Proof.
  unfold label. set (n := Z.of_nat (length table)).
  destruct (Z.leb_spec (- n) i), (Z.ltb_spec i n); simpl;
    try (split; [intros _; lia | reflexivity]).
  split; [|lia]. intros Hnone. apply lookup_ge_None in Hnone.
  pose proof (Z.mod_pos_bound i n ltac:(lia)). lia.
Qed.

Lemma index_Ok_elem {A} (l : list A) i x : index l i = Ok x → x ∈ l.
Proof.
  unfold index. destruct (norm_index (length l) i) as [k|]; [|discriminate].
  destruct (l !! k) as [y|] eqn:E; [|discriminate].
  intros [= <-]. eapply list_elem_of_lookup_2, E.
Qed.

Lemma index_raises {A} (l : list A) i e : index l i = Raise e → e = IndexError.
Proof.
  unfold index. destruct (norm_index (length l) i) as [k|]; [|congruence].
  destruct (l !! k); congruence.
Qed.

(** ** The categorical lookups (lines 85 to 88 and 127 to 131) *)

(** C4, as the code has it.  The two decoders are lookups in the fixed
    tables of 7 colours, 4 vehicle types and 2 genders.  An index from 0 up
    to the table's length selects that entry; an index from minus the
    length up to -1 selects the entry counted from the end; every other
    index raises [IndexError]. *)
Theorem decode_lookup (colorIndex typeIndex ageValue genderIndex : Z) :
  decodeCarMeta [colorIndex; typeIndex]
  = match label CAR_COLORS colorIndex, label CAR_TYPES typeIndex with
    | Some color, Some type => Ok (color, type)
    | _, _ => Raise IndexError
    end
  ∧ decodeGender [ageValue; genderIndex]
    = match label GENDER_TYPES genderIndex with
      | Some gender => Ok (ageValue, gender)
      | None => Raise IndexError
      end
  ∧ (∀ (table : list string) (i : Z),
       (label table i = None
        ↔ i < - Z.of_nat (length table) ∨ Z.of_nat (length table) ≤ i)
       ∧ (0 ≤ i → label table i = table !! Z.to_nat i)
       ∧ (i < 0 → label table i = None
                  ∨ label table i = table !! Z.to_nat (Z.of_nat (length table) + i)))
  ∧ length CAR_COLORS = 7%nat ∧ length CAR_TYPES = 4%nat
  ∧ length GENDER_TYPES = 2%nat
  ∧ decodeCarMeta [0; 0] = Ok ("white", "car")%string
  ∧ decodeCarMeta [6; 3] = Ok ("black", "van")%string
  ∧ decodeCarMeta [7; 0] = Raise IndexError
  ∧ decodeGender [25; 1] = Ok (25, "male"%string).
Proof.
  split; [|split; [|split]].
  - unfold decodeCarMeta. change (index [colorIndex; typeIndex] 0) with (Ok colorIndex).
    change (index [colorIndex; typeIndex] 1) with (Ok typeIndex).
    unfold and_then. rewrite !index_label.
    destruct (label CAR_COLORS colorIndex), (label CAR_TYPES typeIndex); reflexivity.
  - unfold decodeGender. change (index [ageValue; genderIndex] 0) with (Ok ageValue).
    change (index [ageValue; genderIndex] 1) with (Ok genderIndex).
    unfold and_then. rewrite index_label.
    destruct (label GENDER_TYPES genderIndex); reflexivity.
  - intros table i. split; [apply label_None|]. split.
    + intros Hi. unfold label. set (n := Z.of_nat (length table)).
      destruct (Z.leb_spec (- n) i), (Z.ltb_spec i n); simpl; try lia.
      * rewrite Z.mod_small by lia. reflexivity.
      * symmetry. apply lookup_ge_None. lia.
    + intros Hi. unfold label. set (n := Z.of_nat (length table)).
      destruct (Z.leb_spec (- n) i), (Z.ltb_spec i n); simpl; auto; try lia.
      right. do 2 f_equal.
      rewrite <- (Z.mod_small (n + i) n) by lia.
      rewrite <- (Z_mod_plus_full i 1 n). f_equal. lia.
  - repeat split.
Qed.

Lemma decode_lookup_witness :
  decodeCarMeta [5; -3] = Ok ("blue", "bus")%string
  ∧ decodeGender [31; 2] = Raise IndexError.
Proof.
  destruct (decode_lookup 5 (-3) 31 2) as (Hcar & Hgender & _).
  split; [exact Hcar | exact Hgender].
Defined.

(** C4, as stated, fails on negative indices: -1 is the last entry of a
    table, not an error. *)
Lemma negative_index_is_a_lookup :
  decodeCarMeta [-1; 0] = Ok ("black", "car")%string
  ∧ decodeCarMeta [0; -4] = Ok ("white", "car")%string
  ∧ decodeGender [25; -1] = Ok (25, "male"%string).
Proof. repeat split. Qed.

(** ** Drawing in place (lines 92 to 95, 97 to 113, 134 to 137) *)

Section Drawing.

Context {cv : Cv2}.

Lemma draw_all_nil w : draw_all [] w = w.
Proof. destruct w. unfold draw_all. simpl. rewrite app_nil_r. reflexivity. Qed.

Lemma draw_all_app cs1 cs2 w :
  draw_all cs2 (draw_all cs1 w) = draw_all (cs1 ++ cs2) w.
Proof. unfold draw_all. simpl. rewrite foldl_app, app_assoc. reflexivity. Qed.

Lemma for_each_app {A} (xs ys : list A) (body : A → M unit) w :
  for_each (xs ++ ys) body w = (run for_each xs body in for_each ys body) w.
Proof.
  revert w. induction xs as [|x xs IH]; intros w; simpl.
  - reflexivity.
  - unfold bind. destruct (body x w) as [[[]|e] w']; [|reflexivity].
    rewrite IH. reflexivity.
Qed.

Lemma range_by_2_even n : range_by_2 (2 * n) = (λ k, 2 * k)%nat <$> seq 0 n.
Proof. unfold range_by_2. rewrite Nat.div2_succ_double. reflexivity. Qed.

Lemma range_by_2_odd n :
  range_by_2 (2 * n + 1) = ((λ k, 2 * k)%nat <$> seq 0 n) ++ [(2 * n)%nat].
Proof.
  unfold range_by_2. replace (S (2 * n + 1)) with (2 * S n)%nat by lia.
  rewrite Nat.div2_double, seq_S, fmap_app. reflexivity.
Qed.

Lemma facial_step_pair pts k w :
  (2 * k + 1 < length pts)%nat →
  facial_step pts (2 * k) w
  = if landmark_fits pts k then (Ok (), draw_all (marker k (landmark pts k)) w)
    else (Raise Cv2Error, w).
Proof.
  intros Hk.
  destruct (lookup_lt_is_Some_2 pts (2 * k)) as [x Hx]; [lia|].
  destruct (lookup_lt_is_Some_2 pts (2 * k + 1)) as [y Hy]; [lia|].
  unfold facial_step, landmark_fits, landmark.
  rewrite (nth_lookup_Some _ _ 0 _ Hx), (nth_lookup_Some _ _ 0 _ Hy).
  replace (Z.of_nat (2 * k) + 1) with (Z.of_nat (2 * k + 1)) by lia.
  rewrite (index_lookup _ _ _ Hx), (index_lookup _ _ _ Hy).
  replace (2 * k / 2)%nat with k by (rewrite Nat.mul_comm, Nat.div_mul; lia).
  unfold bind, of_result, cv2_point. cbn [fst snd].
  destruct (fits_c_int x && fits_c_int y); [|reflexivity].
  unfold draw, draw_all, marker. simpl.
  rewrite <- app_assoc. reflexivity.
Qed.

Lemma facial_step_lone pts k w :
  length pts = (2 * k + 1)%nat →
  facial_step pts (2 * k) w = (Raise IndexError, w).
Proof.
  intros Hlen.
  destruct (lookup_lt_is_Some_2 pts (2 * k)) as [x Hx]; [lia|].
  unfold facial_step.
  replace (Z.of_nat (2 * k) + 1) with (Z.of_nat (2 * k + 1)) by lia.
  rewrite (index_lookup _ _ _ Hx), (index_beyond pts (2 * k + 1)).
  - reflexivity.
  - apply lookup_ge_None. lia.
Qed.

Lemma leading_le P n : ∀ first, (leading P first n ≤ n)%nat.
Proof.
  induction n as [|n IH]; intros first; simpl; [lia|].
  destruct (P first); [|lia]. specialize (IH (S first)). lia.
Qed.

(** Up to the count [leading] gives, everything satisfies [P]; the next
    one, when there is one, does not. *)
Lemma leading_spec P n :
  ∀ first,
    (∀ k, (k < leading P first n)%nat → P (first + k)%nat = true)
    ∧ ((leading P first n < n)%nat → P (first + leading P first n)%nat = false).
Proof.
  induction n as [|n IH]; intros first; simpl.
  - split; intros; lia.
  - destruct (P first) eqn:E.
    + destruct (IH (S first)) as [Hall Hstop]. split.
      * intros [|k] Hk; [rewrite Nat.add_0_r; exact E|].
        replace (first + S k)%nat with (S first + k)%nat by lia.
        apply Hall. lia.
      * intros Hlt.
        replace (first + S (leading P (S first) n))%nat
          with (S first + leading P (S first) n)%nat by lia.
        apply Hstop. lia.
    + split; [intros; lia|]. intros _. rewrite Nat.add_0_r. exact E.
Qed.

(** The count is the position of the first failure, when one is known. *)
Lemma leading_first P n k :
  (k < n)%nat → (∀ j, (j < k)%nat → P j = true) → P k = false →
  leading P 0 n = k.
Proof.
  intros Hk Hbefore Hat.
  destruct (leading_spec P n 0) as [Hall Hstop]. simpl in Hall, Hstop.
  pose proof (leading_le P n 0) as Hle.
  destruct (Nat.lt_trichotomy (leading P 0 n) k) as [Hlt|[Heq|Hgt]].
  - rewrite Hbefore in Hstop by exact Hlt. specialize (Hstop ltac:(lia)).
    discriminate.
  - exact Heq.
  - rewrite Hall in Hat by exact Hgt. discriminate.
Qed.

Lemma leading_all P n :
  (∀ k, (k < n)%nat → P k = true) → leading P 0 n = n.
Proof.
  intros Hall. destruct (leading_spec P n 0) as [_ Hstop]. simpl in Hstop.
  pose proof (leading_le P n 0) as Hle.
  destruct (decide (leading P 0 n = n)) as [Heq|Hne]; [exact Heq|].
  rewrite Hall in Hstop by lia. specialize (Hstop ltac:(lia)). discriminate.
Qed.

(** The loop over the complete pairs: it draws the markers of the pairs
    OpenCV accepts and stops at the first it refuses. *)
Lemma facial_loop pts n :
  ∀ first w,
    (2 * (first + n) ≤ length pts)%nat →
    for_each ((λ k, 2 * k)%nat <$> seq first n) (facial_step pts) w
    = (if (leading (landmark_fits pts) first n <? n)%nat
       then Raise Cv2Error else Ok (),
       draw_all (markers pts first (leading (landmark_fits pts) first n)) w).
Proof.
  induction n as [|n IH]; intros first w Hlen.
  - simpl. unfold markers. simpl. rewrite draw_all_nil. reflexivity.
  - cbn [seq leading]. rewrite fmap_cons. cbn [for_each]. unfold bind.
    rewrite facial_step_pair by lia.
    destruct (landmark_fits pts first).
    + rewrite IH by lia. rewrite draw_all_app.
      change (S ?a <? S ?b)%nat with (a <? b)%nat. reflexivity.
    + unfold markers. simpl. rewrite draw_all_nil. reflexivity.
Qed.

Lemma markers_length pts n first : length (markers pts first n) = (2 * n)%nat.
Proof.
  revert first. unfold markers.
  induction n as [|n IH]; intros first; simpl; [reflexivity|].
  rewrite IH. lia.
Qed.

Lemma markers_lookup pts n :
  ∀ first k,
    (k < n)%nat →
    markers pts first n !! (2 * k)%nat
    = Some (Circle (landmark pts (first + k)) 4 (Pixel 255 0 0) (-1))
    ∧ markers pts first n !! (2 * k + 1)%nat
      = Some (PutText ("p" +:+ str (Z.of_nat (first + k))) (landmark pts (first + k))
                      FONT_HERSHEY_SIMPLEX 0.7%float (Pixel 255 255 255) 2).
Proof.
  induction n as [|n IH]; intros first k Hk; [lia|].
  destruct k as [|k].
  - rewrite Nat.add_0_r. split; reflexivity.
  - replace (2 * S k)%nat with (S (S (2 * k))) by lia.
    replace (first + S k)%nat with (S first + k)%nat by lia.
    exact (IH (S first) k ltac:(lia)).
Qed.

(** FACIAL on any flat list: the markers of the accepted pairs are drawn
    in place, then the call raises at the pair OpenCV refuses, or returns
    at the end of the list, or raises there on a lone last coordinate. *)
Lemma facial_any pts x :
  output_buf x = Ints pts →
  facial x = (facial_outcome pts, draw_all (markers pts 0 (accepted pts)) x).
Proof.
  intros Hout.
  assert (facial x
          = (run for_each (range_by_2 (length pts)) (facial_step pts) in
             ret TheImage) x) as ->
    by (unfold facial, ints, get_output, bind; simpl; rewrite Hout; reflexivity).
  unfold facial_outcome, accepted.
  set (n := (length pts / 2)%nat).
  destruct (Nat.even (length pts)) eqn:E.
  - apply Nat.even_spec in E as [k Hk].
    assert (n = k) as Hn
      by (unfold n; rewrite Hk, Nat.mul_comm; apply Nat.div_mul; lia).
    rewrite Hk, <- Hn. unfold bind.
    rewrite range_by_2_even, facial_loop by lia.
    destruct (leading (landmark_fits pts) 0 n <? n)%nat; reflexivity.
  - apply (f_equal negb) in E. rewrite Nat.negb_even in E. simpl in E.
    apply Nat.odd_spec in E as [k Hk].
    assert (n = k) as Hn
      by (unfold n; rewrite Hk, Nat.mul_comm, Nat.div_add_l by lia;
          apply Nat.add_0_r).
    rewrite Hk, <- Hn. unfold bind.
    rewrite range_by_2_odd, for_each_app. unfold bind.
    rewrite facial_loop by lia.
    destruct (Nat.ltb_spec (leading (landmark_fits pts) 0 n) n) as [Hlt|Hge];
      [reflexivity|].
    pose proof (leading_le (landmark_fits pts) n 0) as Hle.
    replace (leading (landmark_fits pts) 0 n) with n by lia.
    cbn [for_each]. unfold bind.
    rewrite facial_step_lone; [reflexivity | lia].
Qed.

Lemma facial_ill_typed s x :
  output_buf x = Heatmaps s → facial x = (Raise TypeError, x).
Proof.
  intros Hout. unfold facial, ints, get_output, bind. simpl. rewrite Hout.
  reflexivity.
Qed.

(** Every coordinate of a list is a C [int]: FACIAL gets to draw all its
    complete pairs. *)
Lemma accepted_all pts :
  Forall (λ v, fits_c_int v = true) pts → accepted pts = (length pts / 2)%nat.
Proof.
  intros Hfit. apply leading_all. intros k Hk.
  assert (2 * (length pts / 2) ≤ length pts)%nat by (apply Nat.Div0.mul_div_le).
  destruct (lookup_lt_is_Some_2 pts (2 * k)) as [x Hx]; [lia|].
  destruct (lookup_lt_is_Some_2 pts (2 * k + 1)) as [y Hy]; [lia|].
  unfold landmark_fits, landmark.
  rewrite (nth_lookup_Some _ _ 0 _ Hx), (nth_lookup_Some _ _ 0 _ Hy). simpl.
  pose proof (Forall_lookup_1 _ _ _ _ Hfit Hx) as Fx.
  pose proof (Forall_lookup_1 _ _ _ _ Hfit Hy) as Fy.
  simpl in Fx, Fy. rewrite Fx, Fy. reflexivity.
Qed.

End Drawing.

(** C5, as the code has it.  On a landmark list of even length 2N whose
    coordinates are all C [int]s, FACIAL returns the image it was given with
    exactly 2N drawing calls made on it, in place: for each landmark k from
    0 to N-1, a filled circle of radius 4 at its point (x_k, y_k) followed by
    the text "p" and k anchored at that point.  At the first pair with a
    coordinate that is no C [int] the call raises [cv2.error], the markers
    of the pairs before it drawn and nothing after.  On a list of odd
    length it always raises: [IndexError], the error of the missing
    coordinate, once the markers of all complete pairs are drawn, unless a
    pair is refused before. *)
Theorem facial_markers `{cv : Cv2} (pts : list Z) (N : nat) (g : string) (w : world) :
  output_buf w = Ints pts →
  let r := create_output_image "FACIAL" g w in
  (length pts = (2 * N)%nat → Forall (λ v, fits_c_int v = true) pts →
   r.1 = Ok TheImage
   ∧ ∃ calls,
       r.2 = draw_all calls w
       ∧ length calls = (2 * N)%nat
       ∧ ∀ k, (k < N)%nat →
           calls !! (2 * k)%nat
           = Some (Circle (nth (2 * k) pts 0, nth (2 * k + 1) pts 0) 4
                          (Pixel 255 0 0) (-1))
           ∧ calls !! (2 * k + 1)%nat
             = Some (PutText ("p" +:+ str (Z.of_nat k))
                             (nth (2 * k) pts 0, nth (2 * k + 1) pts 0)
                             FONT_HERSHEY_SIMPLEX 0.7%float (Pixel 255 255 255) 2))
  ∧ (∀ k, (2 * k + 1 < length pts)%nat →
          (∀ j, (j < k)%nat → landmark_fits pts j = true) →
          landmark_fits pts k = false →
          r = (Raise Cv2Error, draw_all (markers pts 0 k) w))
  ∧ (length pts = (2 * N + 1)%nat →
     (∃ e, r.1 = Raise e)
     ∧ ((∀ j, (j < N)%nat → landmark_fits pts j = true) →
        r = (Raise IndexError, draw_all (markers pts 0 N) w))).
Proof.
  intros Hout r. subst r. change (create_output_image "FACIAL" g) with facial.
  rewrite (facial_any pts w Hout). unfold facial_outcome.
  split; [|split].
  - intros Hlen Hfit.
    assert (length pts / 2 = N)%nat as HN
      by (rewrite Hlen, Nat.mul_comm; apply Nat.div_mul; lia).
    rewrite (accepted_all pts Hfit), HN, Nat.ltb_irrefl, Hlen.
    replace (Nat.even (2 * N)) with true
      by (rewrite Nat.even_mul; reflexivity).
    split; [reflexivity|].
    exists (markers pts 0 N). split; [reflexivity|].
    split; [apply markers_length|].
    intros k Hk. exact (markers_lookup pts N 0 k Hk).
  - intros k Hk Hbefore Hat.
    assert (k < length pts / 2)%nat as Hlt
      by (apply (Nat.div_le_lower_bound _ 2 (S k)); lia).
    unfold accepted.
    rewrite (leading_first (landmark_fits pts) _ k Hlt Hbefore Hat).
    apply Nat.ltb_lt in Hlt. rewrite Hlt. reflexivity.
  - intros Hlen.
    assert (length pts / 2 = N)%nat as HN
      by (rewrite Hlen, Nat.mul_comm, Nat.div_add_l by lia; apply Nat.add_0_r).
    assert (Nat.even (length pts) = false) as Hodd
      by (rewrite Hlen, Nat.add_1_r, Nat.even_succ, <- Nat.negb_even,
            Nat.even_mul; reflexivity).
    rewrite Hodd, HN. split.
    + destruct (accepted pts <? N)%nat; eauto.
    + intros Hfit. unfold accepted. rewrite HN.
      rewrite (leading_all (landmark_fits pts) N Hfit), Nat.ltb_irrefl.
      reflexivity.
Qed.

Lemma facial_markers_witness :
  let w := World (replicate 12 (replicate 12 Runs.black)) (Ints [10; 10; 20; 20])
                 [] [] in
  let r := create_output_image (cv := Reference.cv2 []) "FACIAL" "" w in
  r.1 = Ok TheImage
  ∧ drawn r.2
    = [Circle (10, 10) 4 (Pixel 255 0 0) (-1);
       PutText "p0" (10, 10) 0 0.7%float (Pixel 255 255 255) 2;
       Circle (20, 20) 4 (Pixel 255 0 0) (-1);
       PutText "p1" (20, 20) 0 0.7%float (Pixel 255 255 255) 2]
  ∧ image_buf r.2 ≠ image_buf w.
Proof.
  intros w r.
  destruct (facial_markers (cv := Reference.cv2 []) [10; 10; 20; 20] 2 "" w eq_refl)
    as [Heven _].
  destruct (Heven eq_refl ltac:(repeat constructor)) as (Hok & calls & Hheap & _).
  split; [exact Hok|]. split; [reflexivity|].
  intros H. discriminate H.
Defined.

(** C5, as stated, fails.  The list [2147483648, 0] has even length, and
    FACIAL draws no marker for its one landmark: the first coordinate is no
    C [int], [cv2.circle] refuses the point with [cv2.error] and the image
    is as it was. *)
Lemma wide_coordinate_is_refused :
  let w := World [[Runs.black]] (Ints [2147483648; 0]) [] [] in
  create_output_image (cv := Reference.cv2 []) "FACIAL" "" w = (Raise Cv2Error, w).
Proof. reflexivity. Qed.

(** ** The overlay scale (line 117) *)




(** ** Writing a pixel (line 125) *)

Lemma norm_index_within n k :
  within n k →
  ∃ p, norm_index n k = Some p ∧ (p < n)%nat ∧ Z.of_nat p = k mod Z.of_nat n.
Proof.
  unfold within, norm_index. intros Hk.
  destruct (Z.leb_spec 0 k), (Z.ltb_spec k (Z.of_nat n)); simpl; try lia.
  - exists (Z.to_nat k). split; [reflexivity|]. split; [lia|].
    rewrite Z.mod_small by lia. lia.
  - destruct (Z.leb_spec (- Z.of_nat n) k), (Z.ltb_spec k 0); simpl; try lia.
    exists (Z.to_nat (k + Z.of_nat n)). split; [reflexivity|]. split; [lia|].
    rewrite <- (Z_mod_plus_full k 1), Z.mod_small by lia. lia.
Qed.

Lemma norm_index_outside n k : ¬ within n k → norm_index n k = None.
Proof.
  unfold within, norm_index. intros Hk.
  destruct (Z.leb_spec 0 k), (Z.ltb_spec k (Z.of_nat n)),
    (Z.leb_spec (- Z.of_nat n) k), (Z.ltb_spec k 0); simpl; try reflexivity; lia.
Qed.

Lemma width_in_shape {A} h w (a : list (list A)) :
  Np.has_shape h w a → (0 < h)%nat → Np.width a = w.
Proof.
  intros [Hh Hw] Hpos. destruct a as [|row a]; simpl in *; [lia|].
  unfold Np.width. simpl. apply Forall_cons_1 in Hw as [Hrow _]. exact Hrow.
Qed.

Lemma setitem_within {A} h w (a : list (list A)) r c v :
  Np.has_shape h w a → within h r → within w c →
  ∃ a', Np.setitem a r c v = Some a'
        ∧ Np.has_shape h w a'
        ∧ ∀ i j, cell a' i j
                 = if decide (Z.of_nat i = r mod Z.of_nat h
                              ∧ Z.of_nat j = c mod Z.of_nat w)
                   then Some v else cell a i j.
Proof.
  intros Ha Hr Hc.
  destruct (norm_index_within _ _ Hr) as (p & Hp & Hph & Hpr).
  destruct (norm_index_within _ _ Hc) as (q & Hq & Hqw & Hqc).
  pose proof (width_in_shape _ _ _ Ha ltac:(lia)) as Hwidth.
  destruct Ha as [Hh Hw].
  unfold Np.setitem, Np.height. rewrite Hwidth, Hh, Hp, Hq.
  eexists. split; [reflexivity|]. split; [split|].
  - rewrite length_alter. exact Hh.
  - apply Forall_lookup_2. intros i row Hrow.
    destruct (decide (i = p)) as [->|Hne].
    + rewrite list_lookup_alter_eq in Hrow.
      destruct (a !! p) as [row0|] eqn:E; [|discriminate].
      injection Hrow as <-. rewrite length_insert.
      exact (Forall_lookup_1 _ _ _ _ Hw E).
    + rewrite list_lookup_alter_ne in Hrow by congruence.
      exact (Forall_lookup_1 _ _ _ _ Hw Hrow).
  - intros i j. unfold cell.
    destruct (decide (i = p)) as [->|Hne].
    + rewrite list_lookup_alter_eq.
      destruct (lookup_lt_is_Some_2 a p) as [row Hrow]; [lia|].
      rewrite Hrow. simpl.
      pose proof (Forall_lookup_1 _ _ _ _ Hw Hrow) as Hlen. simpl in Hlen.
      destruct (decide (j = q)) as [->|Hnq].
      * rewrite decide_True by lia.
        apply list_lookup_insert_eq. lia.
      * rewrite decide_False by lia.
        apply list_lookup_insert_ne. congruence.
    + rewrite list_lookup_alter_ne by congruence.
      rewrite decide_False by lia. reflexivity.
Qed.

Lemma setitem_outside {A} h w (a : list (list A)) r c v :
  Np.has_shape h w a → ¬ (within h r ∧ within w c) →
  Np.setitem a r c v = None.
Proof.
  intros Ha Hout. unfold Np.setitem, Np.height.
  destruct (decide (within h r)) as [Hr|Hr].
  - pose proof (width_in_shape _ _ _ Ha ltac:(unfold within in Hr; lia)) as ->.
    rewrite (norm_index_outside w c) by tauto.
    destruct (norm_index (length a) r); reflexivity.
  - destruct Ha as [-> _]. rewrite (norm_index_outside h r Hr). reflexivity.
Qed.

(** A loop whose body either goes through, for the items that are [good],
    or raises [IndexError]: it goes through when all items are good and
    raises otherwise, and an invariant of the body is one of the loop. *)
Lemma for_each_until {A} (Inv : world → Prop) (good : A → Prop)
    (xs : list A) (body : A → M unit) :
  (∀ x w, x ∈ xs → Inv w →
     Inv (body x w).2
     ∧ (((body x w).1 = Ok () ∧ good x)
        ∨ ((body x w).1 = Raise IndexError ∧ ¬ good x))) →
  ∀ w, Inv w →
    Inv (for_each xs body w).2
    ∧ (((for_each xs body w).1 = Ok () ∧ Forall good xs)
       ∨ ((for_each xs body w).1 = Raise IndexError ∧ ¬ Forall good xs)).
Proof.
  induction xs as [|x xs IH]; intros Hbody w Hinv.
  - simpl. split; [exact Hinv|]. left. split; [reflexivity | constructor].
  - cbn [for_each]. unfold bind.
    destruct (Hbody x w ltac:(left) Hinv) as [Hinv' Hx].
    destruct (body x w) as [[[]|e] w'] eqn:E; simpl in Hinv', Hx.
    + destruct Hx as [[_ Hgood]|[Hbad _]]; [|discriminate].
      destruct (IH (λ y w0 Hy, Hbody y w0 (list_elem_of_further _ _ _ Hy)) w' Hinv')
        as [Hinv'' [[Hok Hall]|[Hraise Hnot]]].
      * split; [exact Hinv''|]. left. split; [exact Hok | constructor; assumption].
      * split; [exact Hinv''|]. right. split; [exact Hraise|].
        intros Hall. apply Forall_cons_1 in Hall as [_ Hall]. exact (Hnot Hall).
    + simpl. split; [exact Hinv'|]. right.
      destruct Hx as [[Hok _]|[Hraise Hbad]]; [discriminate|].
      split; [exact Hraise|].
      intros Hall. apply Forall_cons_1 in Hall as [Hgood _]. exact (Hbad Hgood).
Qed.

(** ** The overlay loop (lines 121 to 126) *)

Section Overlay.

Context {cv : Cv2}.
Variables (glasses : asset) (tv th : Z) (gw gh h w : nat) (start : world).
Hypothesis glasses_shape : Np.has_shape gw gh glasses.

Lemma overlay_cell_step i j x :
  (i < gw)%nat → (j < gh)%nat → overlay_inv glasses tv th h w start x →
  let r := overlay_cell glasses tv th i j x in
  overlay_inv glasses tv th h w start r.2
  ∧ ((r.1 = Ok () ∧ lands glasses tv th h w i j) ∨ (r.1 = Raise IndexError ∧ ¬ lands glasses tv th h w i j)).
Proof.
  intros Hi Hj Hinv.
  destruct (cell_in_shape _ _ _ _ _ glasses_shape Hi Hj) as [px Hpx].
  pose proof Hpx as (row & Hrow & Hcell)%cell_Some.
  cbv zeta. unfold overlay_cell, bind, of_option. rewrite Hrow. simpl.
  rewrite Hcell. simpl.
  destruct (decide (alpha4 px = 0)) as [Hzero|Hopaque]; simpl.
  - split; [exact Hinv|]. left. split; [reflexivity|].
    intros px' Hpx' Hne. congruence.
  - destruct Hinv as (Hshape & Hover & Ho & Hs & Hd).
    destruct (decide (within h (Z.of_nat i + tv) ∧ within w (Z.of_nat j + th)))
      as [[Hr Hc]|Hout].
    + destruct (setitem_within _ _ _ _ _ (drop_alpha px) Hshape Hr Hc)
        as (a' & -> & Hshape' & Hcells).
      simpl. split.
      * split; [exact Hshape'|]. split; [|auto].
        intros r c p. rewrite Hcells. case_decide as Htarget.
        -- intros [= <-]. right. exists i, j, px. tauto.
        -- apply Hover.
      * left. split; [reflexivity|].
        intros px' Hpx' _. auto.
    + rewrite (setitem_outside _ _ _ _ _ _ Hshape Hout). simpl.
      split; [unfold overlay_inv; tauto|].
      right. split; [reflexivity|].
      intros Hlands. exact (Hout (Hlands px Hpx Hopaque)).
Qed.

Lemma overlay_run :
  overlay_inv glasses tv th h w start start →
  let r := overlay glasses tv th start in
  overlay_inv glasses tv th h w start r.2
  ∧ ((r.1 = Ok () ∧ ∀ i j, lands glasses tv th h w i j)
     ∨ (r.1 = Raise IndexError ∧ ¬ ∀ i j, lands glasses tv th h w i j)).
Proof.
  intros Hstart. unfold overlay.
  assert (Np.height glasses = gw) as -> by (destruct glasses_shape; assumption).
  assert (∀ i j, (i < gw → j < gh → lands glasses tv th h w i j)%nat → lands glasses tv th h w i j) as Hinside.
  { intros i j Hij px Hpx. refine (Hij _ _ px Hpx).
    - apply cell_Some in Hpx as (row & Hrow & _).
      apply lookup_lt_Some in Hrow. destruct glasses_shape. lia.
    - apply cell_Some in Hpx as (row & Hrow & Hcell).
      apply lookup_lt_Some in Hcell. destruct glasses_shape as [_ Hrows].
      pose proof (Forall_lookup_1 _ _ _ _ Hrows Hrow) as Hlen.
      simpl in Hlen. lia. }
  destruct (for_each_until (overlay_inv glasses tv th h w start)
              (λ i, Forall (lands glasses tv th h w i) (seq 0 (Np.width glasses))) (seq 0 gw)
              (λ i, for_each (seq 0 (Np.width glasses))
                      (λ j, overlay_cell glasses tv th i j))) with (w := start)
    as [Hinv Hres].
  - intros i x Hi%elem_of_seq Hx.
    apply (for_each_until (overlay_inv glasses tv th h w start) (lands glasses tv th h w i)); [|exact Hx].
    intros j y Hj%elem_of_seq Hy.
    apply overlay_cell_step; [lia | | exact Hy].
    rewrite (width_in_shape _ _ _ glasses_shape) in Hj; lia.
  - exact Hstart.
  - split; [exact Hinv|].
    assert (Forall (λ i, Forall (lands glasses tv th h w i) (seq 0 (Np.width glasses))) (seq 0 gw)
            ↔ ∀ i j, lands glasses tv th h w i j) as Hall.
    { split.
      - intros Hall i j. apply Hinside. intros Hi Hj.
        rewrite Forall_forall in Hall.
        specialize (Hall i ltac:(apply elem_of_seq; lia)).
        rewrite Forall_forall in Hall. apply Hall, elem_of_seq.
        rewrite (width_in_shape _ _ _ glasses_shape); lia.
      - intros Hall. apply Forall_forall. intros i _.
        apply Forall_forall. intros j _. apply Hall. }
    rewrite <- Hall. exact Hres.
Qed.

End Overlay.

Lemma placement_reads_only `{cv : Cv2} g : preserved (λ x, x) (placement g).
Proof. unfold placement, resized_size, ints. preserve. Qed.

(** What GLASS does once the asset is placed. *)
Lemma glass_overlay_run `{cv : Cv2} g x glasses tv th :
  (placement g x).1 = Ok (glasses, (tv, th)) →
  create_output_image "GLASS" g x
  = (run overlay glasses tv th in ret TheImage) x.
Proof.
  intros Hplace. change (create_output_image "GLASS" g) with (glass_overlay g).
  unfold glass_overlay, bind at 1.
  pose proof (placement_reads_only g x) as Hsame.
  destruct (placement g x) as [res x']. simpl in Hplace, Hsame. subst. reflexivity.
Qed.

(** C7, as the code has it.  With the asset placed, GLASS goes through
    exactly when every asset pixel of non-zero alpha has a target row in
    [-H, H) and a target column in [-W, W), and raises [IndexError]
    otherwise; transparent pixels are never checked.  Either way the buffer
    keeps its shape and each of its pixels is the one it had or the colour
    of an opaque asset pixel whose target, counted from the far edge when
    negative, is that position; nothing else in the heap changes. *)
Theorem glass_overlay_bounds `{cv : Cv2} (g : string) (x : world)
    (glasses : asset) (tv th : Z) (gw gh h w : nat) :
  (placement g x).1 = Ok (glasses, (tv, th)) →
  Np.has_shape gw gh glasses →
  Np.has_shape h w (image_buf x) →
  let r := create_output_image "GLASS" g x in
  (r.1 = Ok TheImage ↔ ∀ i j, lands glasses tv th h w i j)
  ∧ (r.1 = Ok TheImage ∨ r.1 = Raise IndexError)
  ∧ Np.has_shape h w (image_buf r.2)
  ∧ overlaid glasses tv th h w (image_buf x) (image_buf r.2)
  ∧ output_buf r.2 = output_buf x
  ∧ stdout r.2 = stdout x
  ∧ drawn r.2 = drawn x.
Proof.
  intros Hplace Hglasses Himage r. subst r.
  rewrite (glass_overlay_run _ _ _ _ _ Hplace). unfold bind.
  assert (overlay_inv glasses tv th h w x x) as Hstart.
  { split; [exact Himage|]. split; [|auto]. intros r c p Hp. left. exact Hp. }
  destruct (overlay_run glasses tv th gw gh h w x Hglasses Hstart)
    as [(Hshape & Hover & Ho & Hs & Hd) Hres].
  destruct (overlay glasses tv th x) as [[[]|e] x']; simpl in *.
  - destruct Hres as [[_ Hall]|[Hraise _]]; [|discriminate].
    split; [split; [intros _; exact Hall | reflexivity]|].
    split; [left; reflexivity | tauto].
  - destruct Hres as [[Hok _]|[Hraise Hnot]]; [discriminate|].
    injection Hraise as ->.
    split; [split; [discriminate | intros Hall; destruct (Hnot Hall)]|].
    split; [right; reflexivity | tauto].
Qed.

Lemma glass_overlay_bounds_witness :
  let cv := Reference.cv2 [("g.png"%string, [[Pixel4 1 2 3 255; Pixel4 4 5 6 0]])] in
  let x := World [[Runs.black; Runs.black]; [Runs.black; Runs.black]]
                 (Ints (Runs.landmarks [(68%nat, 2); (1%nat, 2); (5%nat, 2)]))
                 [] [] in
  let r := create_output_image "GLASS" "g.png" x in
  (placement "g.png" x).1 = Ok ([[Pixel4 1 2 3 255; Pixel4 4 5 6 0]], (1, 0))
  ∧ (r.1 = Ok TheImage ∨ r.1 = Raise IndexError)
  ∧ Np.has_shape 2 2 (image_buf r.2).
Proof.
  intros cv x r.
  assert ((placement "g.png" x).1
          = Ok ([[Pixel4 1 2 3 255; Pixel4 4 5 6 0]], (1, 0))) as Hplace
    by reflexivity.
  split; [exact Hplace|].
  destruct (glass_overlay_bounds "g.png" x [[Pixel4 1 2 3 255; Pixel4 4 5 6 0]]
              1 0 1 2 2 2 Hplace ltac:(repeat constructor) ltac:(repeat constructor))
    as (_ & Hres & Hshape & _).
  split; [exact Hres | exact Hshape].
Defined.

(** C7, as stated, fails.  An asset of one opaque pixel placed at row -1,
    column -1 of a 2 × 2 image lies outside the image; GLASS does not fail,
    it writes the pixel at the opposite corner.  And an asset whose second
    pixel, transparent, falls beyond the last column, is overlaid without
    failure too. *)
Lemma overlay_wraps_instead_of_failing :
  let opaque := [[Pixel4 1 2 3 255]] in
  let half := [[Pixel4 1 2 3 255; Pixel4 4 5 6 0]] in
  let blank := [[Runs.black; Runs.black]; [Runs.black; Runs.black]] in
  let x := World blank
             (Ints (Runs.landmarks [(68%nat, 1); (0%nat, -1); (1%nat, -1);
                                    (4%nat, -1); (5%nat, -1)])) [] [] in
  let y := World blank
             (Ints (Runs.landmarks [(68%nat, 2); (0%nat, 1); (1%nat, 2);
                                    (4%nat, 2); (5%nat, 2)])) [] [] in
  let r := create_output_image (cv := Reference.cv2 [("g.png"%string, opaque)])
             "GLASS" "g.png" x in
  let s := create_output_image (cv := Reference.cv2 [("g.png"%string, half)])
             "GLASS" "g.png" y in
  (placement (cv := Reference.cv2 [("g.png"%string, opaque)]) "g.png" x).1
  = Ok (opaque, (-1, -1))
  ∧ r.1 = Ok TheImage
  ∧ image_buf r.2 = [[Runs.black; Runs.black]; [Runs.black; Pixel 1 2 3]]
  ∧ (placement (cv := Reference.cv2 [("g.png"%string, half)]) "g.png" y).1
    = Ok (half, (1, 1))
  ∧ s.1 = Ok TheImage
  ∧ image_buf s.2 = [[Runs.black; Runs.black]; [Runs.black; Pixel 1 2 3]].
Proof. repeat split. Qed.

(** ** Results depend on the two objects only *)

Lemma repeatable_ret {A} (a : A) : repeatable (ret a).
Proof. intros x y H. split; [reflexivity | exact H]. Qed.

Lemma repeatable_raise {A} e : repeatable (raise (A := A) e).
Proof. intros x y H. split; [reflexivity | exact H]. Qed.

Lemma repeatable_of_result {A} (r : result A) : repeatable (of_result r).
Proof. intros x y H. split; [reflexivity | exact H]. Qed.

Lemma repeatable_of_option {A} e (o : option A) : repeatable (of_option e o).
Proof. destruct o; [apply repeatable_ret | apply repeatable_raise]. Qed.

Lemma repeatable_get_image : repeatable get_image.
Proof. intros x y H. split; [simpl; f_equal; apply H | exact H]. Qed.

Lemma repeatable_get_output : repeatable get_output.
Proof. intros x y H. split; [simpl; f_equal; apply H | exact H]. Qed.

Lemma repeatable_set_image a : repeatable (set_image a).
Proof. intros x y [_ H]. repeat split. exact H. Qed.

Lemma repeatable_set_output o : repeatable (set_output o).
Proof. intros x y [H _]. repeat split. exact H. Qed.

Lemma repeatable_print line : repeatable (print line).
Proof. intros x y H. split; [reflexivity | exact H]. Qed.

Lemma repeatable_draw `{cv : Cv2} c : repeatable (draw c).
Proof.
  intros x y [Hi Ho]. split; [reflexivity|].
  split; simpl; [f_equal; exact Hi | exact Ho].
Qed.

Lemma repeatable_bind {A B} (m : M A) (k : A → M B) :
  repeatable m → (∀ a, repeatable (k a)) → repeatable (bind m k).
Proof.
  intros Hm Hk x y Hxy. unfold bind. destruct (Hm x y Hxy) as [Hres Hobj].
  destruct (m x) as [[a|e] x'], (m y) as [[b|e'] y']; simpl in *;
    try discriminate.
  - injection Hres as <-. apply Hk, Hobj.
  - injection Hres as <-. split; [reflexivity | exact Hobj].
Qed.

Lemma repeatable_for_each {A} (xs : list A) (body : A → M unit) :
  (∀ a, repeatable (body a)) → repeatable (for_each xs body).
Proof.
  intros Hbody. induction xs as [|a xs IH]; simpl.
  - apply repeatable_ret.
  - apply repeatable_bind; [apply Hbody | intros _; exact IH].
Qed.

Create HintDb repeat.
#[export] Hint Resolve repeatable_ret repeatable_raise repeatable_of_result
  repeatable_of_option repeatable_get_image repeatable_get_output
  repeatable_set_image repeatable_set_output repeatable_print
  repeatable_draw : repeat.

Ltac repeats :=
  repeat first
    [ apply repeatable_bind; [|intro]
    | apply repeatable_for_each; intro
    | match goal with
      | |- repeatable (if ?c then _ else _) => destruct c
      | |- repeatable (match ?x with _ => _ end) => destruct x
      end
    | solve [auto with repeat] ].

Lemma repeatable_dispatch `{cv : Cv2} t g : repeatable (create_output_image t g).
Proof.
  unfold create_output_image, pose, text, add_mask, car_meta, facial, facial_step,
    cv2_point, glass_overlay, placement, resized_size, overlay, overlay_cell,
    gender, heatmaps, ints.
  repeats.
Qed.

(** ** What the branches do to the image (lines 64 to 141) *)

Lemma drawn_set_image a : preserved drawn (set_image a).
Proof. intros x. reflexivity. Qed.

Lemma drawn_set_output o : preserved drawn (set_output o).
Proof. intros x. reflexivity. Qed.

#[export] Hint Resolve drawn_set_image drawn_set_output : preserve.

Section Branches.

Context {cv : Cv2}.

Lemma drawn_pose : preserved drawn pose.
Proof. unfold pose, heatmaps, add_mask. preserve. Qed.

Lemma drawn_text : preserved drawn text.
Proof. unfold text, heatmaps, add_mask. preserve. Qed.

Lemma pose_returns_new x img : (pose x).1 = Ok img → ∃ a, img = Fresh a.
Proof.
  unfold pose, heatmaps, get_output, add_mask, get_image, bind, ret, raise,
    set_output, of_option. simpl.
  destruct (output_buf x); simpl; [|discriminate].
  destruct (Np.add _ _); simpl; [|discriminate].
  intros [= <-]. eauto.
Qed.

Lemma text_returns_new x img : (text x).1 = Ok img → ∃ a, img = Fresh a.
Proof.
  unfold text, heatmaps, get_output, add_mask, get_image, bind, ret, raise,
    of_result, of_option. simpl.
  destruct (output_buf x); simpl; [|discriminate].
  destruct (text_map s); simpl; [|discriminate].
  destruct (Np.add _ _); simpl; [|discriminate].
  intros [= <-]. eauto.
Qed.

(** CAR_META and GENDER: one text drawn in place, made of entries of the
    tables, or an exception before anything is drawn. *)
Lemma car_meta_run x :
  (∃ e, car_meta x = (Raise e, x))
  ∨ (∃ color type org fontScale thickness,
       color ∈ CAR_COLORS ∧ type ∈ CAR_TYPES
       ∧ car_meta x
         = (Ok TheImage,
            draw_all [PutText ("Color: " +:+ color +:+ ", Type: " +:+ type) org
                              FONT_HERSHEY_SIMPLEX fontScale (Pixel 0 255 0)
                              thickness] x)).
Proof.
  unfold car_meta, ints, get_output, get_image, bind, ret, raise, of_result. simpl.
  destruct (output_buf x) as [s|l]; simpl; [left; eauto|].
  destruct (decodeCarMeta l) as [[color type]|e] eqn:Hdec; simpl; [|left; eauto].
  right. exists color, type. do 3 eexists.
  split; [|split; [|reflexivity]]; revert Hdec; unfold decodeCarMeta, and_then;
    destruct (index l 0) as [i0|]; try discriminate;
    destruct (index CAR_COLORS i0) as [c|] eqn:Ec; try discriminate;
    destruct (index l 1) as [i1|]; try discriminate;
    destruct (index CAR_TYPES i1) as [ty|] eqn:Et; try discriminate;
    intros [= <- <-]; eapply index_Ok_elem; eassumption.
Qed.

Lemma gender_run x :
  (∃ e, gender x = (Raise e, x))
  ∨ (∃ age gender_type org fontScale thickness,
       gender_type ∈ GENDER_TYPES
       ∧ gender x
         = (Ok TheImage,
            draw_all [PutText (str age +:+ "," +:+ gender_type +:+ " ") org
                              FONT_HERSHEY_SIMPLEX fontScale (Pixel 0 255 0)
                              thickness] x)).
Proof.
  unfold gender, ints, get_output, get_image, bind, ret, raise, of_result. simpl.
  destruct (output_buf x) as [s|l]; simpl; [left; eauto|].
  destruct (decodeGender l) as [[age gender_type]|e] eqn:Hdec; simpl;
    [|left; eauto].
  right. exists age, gender_type. do 3 eexists.
  split; [|reflexivity]. revert Hdec. unfold decodeGender, and_then.
  destruct (index l 0) as [a|]; try discriminate.
  destruct (index l 1) as [i1|]; try discriminate.
  destruct (index GENDER_TYPES i1) as [ty|] eqn:Et; try discriminate.
  intros [= <- <-]. eapply index_Ok_elem. eassumption.
Qed.

(** GLASS writes pixels by assignment: it makes no drawing call, and what
    it returns is the caller's buffer. *)
Lemma drawn_glass_overlay g : preserved drawn (glass_overlay g).
Proof.
  unfold glass_overlay, placement, resized_size, overlay, overlay_cell, ints.
  preserve.
Qed.

Lemma glass_overlaid g x glasses tv th gw gh h w :
  (placement g x).1 = Ok (glasses, (tv, th)) →
  Np.has_shape gw gh glasses →
  Np.has_shape h w (image_buf x) →
  overlaid glasses tv th h w (image_buf x) (image_buf (glass_overlay g x).2).
Proof.
  intros Hplace Hglasses Himage.
  change (glass_overlay g) with (create_output_image "GLASS" g).
  rewrite (glass_overlay_run _ _ _ _ _ Hplace). unfold bind.
  assert (overlay_inv glasses tv th h w x x) as Hstart.
  { split; [exact Himage|]. split; [|auto]. intros r c p Hp. left. exact Hp. }
  destruct (overlay_run glasses tv th gw gh h w x Hglasses Hstart)
    as [(_ & Hover & _) _].
  destruct (overlay glasses tv th x) as [[[]|e] x']; exact Hover.
Qed.

Lemma glass_returns_the_image g x img :
  (glass_overlay g x).1 = Ok img → img = TheImage.
Proof.
  unfold glass_overlay, bind.
  destruct (placement g x) as [[placed|e] x1]; simpl; [|discriminate].
  destruct (overlay placed.1 placed.2.1 placed.2.2 x1) as [[[]|e] x2]; simpl;
    [|discriminate].
  intros [= <-]. reflexivity.
Qed.

End Branches.

(** A literal tag is, or is not, in a literal list of tags. *)
Ltac tag_in := repeat constructor.
Ltac tag_not_in H :=
  repeat (apply elem_of_cons in H as [H|H]; [discriminate H|]);
  apply elem_of_nil in H; destruct H.




(** C9, as the code has it.  For every tag but GLASS the image buffer
    after the call is the buffer before it with the drawing calls of the
    call applied, in order.  POSE, TEXT and an unknown tag issue none: the
    buffer is untouched, POSE and TEXT returning a new array.  CAR_META,
    GENDER and FACIAL draw on the buffer itself and return that buffer: one
    text for CAR_META and GENDER, the markers of the accepted pairs for
    FACIAL.  GLASS returns the buffer itself too; it makes no drawing call
    and writes the buffer by assignment: with the asset placed, every pixel
    of the buffer is the one it had or the colour of a non-transparent asset
    pixel.  The tables are read, never written: they are constants here,
    and the labels drawn are entries of them.  For every tag the result and
    the two objects after the call are determined by the arguments and the
    two objects before it. *)
Theorem in_place_rendering `{cv : Cv2} (t g : string) (x : world) :
  let r := create_output_image t g x in
  (t ≠ "GLASS"%string →
   ∃ calls,
     image_buf r.2 = foldl (λ a c, paint c a) (image_buf x) calls
     ∧ drawn r.2 = drawn x ++ calls
     ∧ (t ∉ ["CAR_META"; "FACIAL"; "GENDER"]%string → calls = [])
     ∧ (t = "CAR_META"%string → is_ok r.1 = true →
        ∃ color type org fontScale thickness,
          color ∈ CAR_COLORS ∧ type ∈ CAR_TYPES
          ∧ calls = [PutText ("Color: " +:+ color +:+ ", Type: " +:+ type) org
                             FONT_HERSHEY_SIMPLEX fontScale (Pixel 0 255 0)
                             thickness])
     ∧ (t = "GENDER"%string → is_ok r.1 = true →
        ∃ age gender_type org fontScale thickness,
          gender_type ∈ GENDER_TYPES
          ∧ calls = [PutText (str age +:+ "," +:+ gender_type +:+ " ") org
                             FONT_HERSHEY_SIMPLEX fontScale (Pixel 0 255 0)
                             thickness])
     ∧ (t = "FACIAL"%string → ∀ pts, output_buf x = Ints pts →
        calls = markers pts 0 (accepted pts)))
  ∧ (t = "GLASS"%string →
     drawn r.2 = drawn x
     ∧ ∀ glasses tv th gw gh h w,
         (placement g x).1 = Ok (glasses, (tv, th)) →
         Np.has_shape gw gh glasses →
         Np.has_shape h w (image_buf x) →
         overlaid glasses tv th h w (image_buf x) (image_buf r.2))
  ∧ (∀ img, r.1 = Ok img →
       if decide (t ∈ ["POSE"; "TEXT"]%string) then ∃ a, img = Fresh a
       else img = TheImage)
  ∧ (∀ y, same_objects x y →
       r.1 = (create_output_image t g y).1
       ∧ same_objects r.2 (create_output_image t g y).2).
Proof.
  intros r. subst r.
  split; [|split; [|split; [|apply repeatable_dispatch]]].
  - intros Hglass.
    destruct (decide (t ∈ MODEL_TYPES)) as [Hin|Hout].
    + unfold MODEL_TYPES in Hin. rewrite !elem_of_cons in Hin.
      destruct Hin as [->|[->|[->|[->|[->|[->|H]]]]]].
      * exists []. rewrite dispatch_pose, image_pose, drawn_pose, app_nil_r.
        repeat split; try reflexivity; try discriminate.
      * exists []. rewrite dispatch_text, image_text, drawn_text, app_nil_r.
        repeat split; try reflexivity; try discriminate.
      * change (create_output_image "CAR_META" g) with car_meta.
        destruct (car_meta_run x)
          as [[e ->]|(color & type & org & sc & th & Hc & Ht & ->)].
        -- exists []. simpl. rewrite app_nil_r.
           repeat split; try reflexivity; discriminate.
        -- eexists. split; [reflexivity|]. split; [reflexivity|].
           split; [intros H; destruct H; tag_in|].
           split; [intros _ _; eauto 10|].
           split; discriminate.
      * change (create_output_image "FACIAL" g) with facial.
        destruct (output_buf x) as [s|pts] eqn:Hout.
        -- rewrite (facial_ill_typed s x Hout). exists []. simpl.
           rewrite app_nil_r. repeat split; try reflexivity; discriminate.
        -- rewrite (facial_any pts x Hout). eexists.
           split; [reflexivity|]. split; [reflexivity|].
           split; [intros H; destruct H; tag_in|].
           split; [discriminate|]. split; [discriminate|].
           intros _ pts' [= <-]. reflexivity.
      * congruence.
      * change (create_output_image "GENDER" g) with gender.
        destruct (gender_run x)
          as [[e ->]|(age & gender_type & org & sc & th & Hg & ->)].
        -- exists []. simpl. rewrite app_nil_r.
           repeat split; try reflexivity; discriminate.
        -- eexists. split; [reflexivity|]. split; [reflexivity|].
           split; [intros H; destruct H; tag_in|].
           split; [discriminate|].
           split; [intros _ _; eauto 10 | discriminate].
      * apply elem_of_nil in H. destruct H.
    + rewrite (fallback_taken t g x Hout). exists []. simpl. rewrite app_nil_r.
      split; [reflexivity|]. split; [reflexivity|]. split; [reflexivity|].
      repeat split; intros ->; destruct Hout; unfold MODEL_TYPES; tag_in.
  - intros ->. change (create_output_image "GLASS" g) with (glass_overlay g).
    split; [apply drawn_glass_overlay|].
    intros glasses tv th gw gh h w. apply glass_overlaid.
  - intros img Himg. case_decide as Hnew.
    + rewrite !elem_of_cons in Hnew. destruct Hnew as [->|[->|H]].
      * rewrite dispatch_pose in Himg. exact (pose_returns_new x img Himg).
      * rewrite dispatch_text in Himg. exact (text_returns_new x img Himg).
      * apply elem_of_nil in H. destruct H.
    + destruct (decide (t ∈ MODEL_TYPES)) as [Hin|Hout].
      * unfold MODEL_TYPES in Hin. rewrite !elem_of_cons in Hin.
        destruct Hin as [->|[->|[->|[->|[->|[->|H]]]]]].
        -- destruct Hnew. tag_in.
        -- destruct Hnew. tag_in.
        -- change (create_output_image "CAR_META" g) with car_meta in Himg.
           destruct (car_meta_run x) as [[e He]|(? & ? & ? & ? & ? & _ & _ & Hok)];
             rewrite ?He, ?Hok in Himg; simpl in Himg; congruence.
        -- change (create_output_image "FACIAL" g) with facial in Himg.
           destruct (output_buf x) as [s|pts] eqn:Hout.
           ++ rewrite (facial_ill_typed s x Hout) in Himg. discriminate.
           ++ rewrite (facial_any pts x Hout) in Himg. simpl in Himg.
              unfold facial_outcome in Himg.
              destruct (accepted pts <? length pts / 2)%nat; [discriminate|].
              destruct (Nat.even (length pts)); congruence.
        -- change (create_output_image "GLASS" g) with (glass_overlay g) in Himg.
           exact (glass_returns_the_image g x img Himg).
        -- change (create_output_image "GENDER" g) with gender in Himg.
           destruct (gender_run x) as [[e He]|(? & ? & ? & ? & ? & _ & Hok)];
             rewrite ?He, ?Hok in Himg; simpl in Himg; congruence.
        -- apply elem_of_nil in H. destruct H.
      * rewrite (fallback_taken t g x Hout) in Himg. simpl in Himg. congruence.
Qed.

Lemma in_place_rendering_witness :
  let x := World [[Pixel 9 9 9]] (Ints [0; 0]) [] [] in
  let r := create_output_image (cv := Reference.cv2 []) "CAR_META" "" x in
  (∀ img, r.1 = Ok img → img = TheImage)
  ∧ ∃ calls, drawn r.2 = calls ∧ length calls = 1%nat.
Proof.
  intros x r.
  destruct (in_place_rendering (cv := Reference.cv2 []) "CAR_META" "" x)
    as (_ & _ & Himg & _).
  split; [exact Himg|].
  eexists. split; reflexivity.
Defined.

(** C9, as stated, fails.  GLASS with an opaque one-pixel asset returns the
    caller's buffer with that pixel written; FACIAL on one landmark and
    CAR_META return the caller's buffer after their drawing calls on it. *)
Lemma rendering_mutates_the_image :
  let cv := Reference.cv2 [("g.png"%string, [[Pixel4 1 2 3 255]])] in
  let x := World [[Runs.black]] (Ints [0; 0]) [] [] in
  let y := World [[Runs.black]]
             (Ints (Runs.landmarks [(68%nat, 1); (0%nat, 1); (1%nat, 1)])) [] [] in
  let facial := create_output_image "FACIAL" "" x in
  let car := create_output_image "CAR_META" "" x in
  let glass := create_output_image "GLASS" "g.png" y in
  glass.1 = Ok TheImage
  ∧ image_buf glass.2 = [[Pixel 1 2 3]]
  ∧ image_buf glass.2 ≠ image_buf y
  ∧ facial.1 = Ok TheImage
  ∧ drawn facial.2 = [Circle (0, 0) 4 (Pixel 255 0 0) (-1);
                      PutText "p0" (0, 0) 0 0.7%float (Pixel 255 255 255) 2]
  ∧ car.1 = Ok TheImage
  ∧ drawn car.2 = [PutText "Color: white, Type: car" (50, 100) 0 2%float
                           (Pixel 0 255 0) 3].
Proof.
  repeat split; intros H; discriminate H.
Qed.


(** * Further properties of the branches *)

(** ** POSE and the array it is given (lines 64 to 76) *)

(** The stack POSE leaves in place of [s]: every channel but the last
    holds its thresholded form, as floats. *)
Lemma removelast_rest {A} (l : list A) :
  removelast l ++ drop (length (removelast l)) l = l.
Proof.
  rewrite removelast_firstn_len.
  replace (length (firstn (Init.Nat.pred (length l)) l)) with (Init.Nat.pred (length l))
    by (rewrite length_take; lia).
  apply take_drop.
Qed.

Lemma pose_run (s : stack) (x : world) :
  output_buf x = Heatmaps s →
  pose x
  = add_mask (pose_map s)
      (World (image_buf x)
         (Heatmaps (Stack (st_h s) (st_w s)
            (((λ m, stored (np_where_gt m)) <$> removelast (st_chans s))
             ++ drop (length (removelast (st_chans s))) (st_chans s))))
         (stdout x) (drawn x)).
Proof.
  intros Hout. unfold pose, heatmaps, get_output, bind at 1 2. rewrite Hout.
  unfold ret at 1. unfold bind, set_output. simpl.
  rewrite threshold_in_place_fmap. reflexivity.
Qed.

Lemma add_mask_reads_only m : preserved (λ x, x) (add_mask m).
Proof. unfold add_mask. preserve. Qed.

Lemma threshold_stored x : threshold (float_of_int (threshold x)) = threshold x.
Proof. unfold threshold at 2 3. destruct (0.5 <? x)%float; reflexivity. Qed.

Lemma np_where_stored m : np_where_gt (stored (np_where_gt m)) = np_where_gt m.
Proof.
  unfold stored, np_where_gt. rewrite <- !list_fmap_compose.
  apply list_fmap_ext. intros _ row _. simpl.
  rewrite <- !list_fmap_compose. apply list_fmap_ext. intros _ x _. simpl.
  apply threshold_stored.
Qed.

(** POSE overwrites the array it is given: whether or not the call goes
    on to succeed, every channel but the last of the caller's stack holds,
    after the call, 255.0 where it was above the cutoff and 0.0 elsewhere;
    the last channel, the number of channels and the shape are as before. *)
Theorem pose_overwrites_output `{cv : Cv2} (s : stack) (g : string) (x : world) :
  output_buf x = Heatmaps s →
  ∃ s',
    output_buf (create_output_image "POSE" g x).2 = Heatmaps s'
    ∧ st_h s' = st_h s ∧ st_w s' = st_w s
    ∧ length (st_chans s') = length (st_chans s)
    ∧ ∀ c m, st_chans s !! c = Some m →
        st_chans s' !! c
        = Some (if decide (S c < length (st_chans s))%nat
                then (λ row : list float,
                        (λ v, float_of_int (threshold v)) <$> row) <$> m
                else m).
Proof.
  intros Hout. rewrite dispatch_pose, (pose_run s x Hout), add_mask_reads_only.
  eexists. split; [reflexivity|]. simpl. split; [reflexivity|]. split; [reflexivity|].
  pose proof (removelast_rest (st_chans s)) as Hrest.
  set (init := removelast (st_chans s)) in *.
  assert (length init = Init.Nat.pred (length (st_chans s))) as Hinit.
  { unfold init. rewrite removelast_firstn_len, length_take. lia. }
  split.
  - rewrite length_app, length_fmap, <- length_app, Hrest. reflexivity.
  - intros c m Hc. pose proof (lookup_lt_Some _ _ _ Hc) as Hlt.
    rewrite <- Hrest in Hc. case_decide as Hlast.
    + rewrite lookup_app_l in Hc by lia.
      rewrite lookup_app_l by (rewrite length_fmap; lia).
      rewrite list_lookup_fmap, Hc. simpl. f_equal.
      unfold stored, np_where_gt. rewrite <- list_fmap_compose.
      apply list_fmap_ext. intros _ row _. simpl.
      rewrite <- list_fmap_compose. reflexivity.
    + rewrite lookup_app_r in Hc by lia.
      rewrite lookup_app_r by (rewrite length_fmap; lia).
      rewrite length_fmap. exact Hc.
Qed.

Lemma pose_overwrites_output_witness :
  let s := Stack 1 2 [[[0.1; 0.7]]; [[0.9; 0.3]]]%float in
  let x := World [[Pixel 1 2 3; Pixel 4 5 6]] (Heatmaps s) [] [] in
  ∃ s', output_buf (create_output_image (cv := Reference.cv2 []) "POSE" "" x).2
        = Heatmaps s'
        ∧ st_chans s' = [[[0; 255]]; [[0.9; 0.3]]]%float.
Proof.
  intros s x.
  destruct (pose_overwrites_output (cv := Reference.cv2 []) s "" x eq_refl)
    as (s' & Hout & _).
  exists s'. split; [exact Hout|].
  injection Hout as <-. reflexivity.
Defined.

(** POSE can be run again on what it left: a second call on the same
    objects returns what the first returned and changes nothing more. *)
Theorem pose_twice `{cv : Cv2} (s : stack) (g : string) (x : world) :
  output_buf x = Heatmaps s →
  let first := create_output_image "POSE" g x in
  let second := create_output_image "POSE" g first.2 in
  second.1 = first.1 ∧ second.2 = first.2.
Proof.
  intros Hout first second. subst first second.
  rewrite dispatch_pose, (pose_run s x Hout).
  set (F := λ m, stored (np_where_gt m)).
  set (init := removelast (st_chans s)).
  set (rest := drop (length init) (st_chans s)).
  set (x1 := World (image_buf x)
               (Heatmaps (Stack (st_h s) (st_w s) ((F <$> init) ++ rest)))
               (stdout x) (drawn x)).
  pose proof (add_mask_reads_only (pose_map s) x1) as Hsame. simpl in Hsame.
  rewrite Hsame.
  assert (removelast ((F <$> init) ++ rest) = F <$> init
          ∧ drop (length (F <$> init)) ((F <$> init) ++ rest) = rest) as [Hinit Hrest].
  { split; [|apply drop_app_length].
    subst init rest. destruct (st_chans s) as [|a l] using rev_ind.
    - reflexivity.
    - clear IHl. rewrite removelast_last, drop_app_length.
      apply removelast_last. }
  assert (F <$> (F <$> init) = F <$> init) as Hidem.
  { rewrite <- list_fmap_compose. apply list_fmap_ext. intros _ m _. simpl.
    unfold F. rewrite np_where_stored. reflexivity. }
  rewrite (pose_run (Stack (st_h s) (st_w s) ((F <$> init) ++ rest)) x1 eq_refl).
  cbn [st_chans st_h st_w image_buf stdout drawn x1].
  change (λ m : list (list float), stored (np_where_gt m)) with F.
  rewrite Hinit, Hidem, Hrest.
  assert (pose_map (Stack (st_h s) (st_w s) ((F <$> init) ++ rest)) = pose_map s) as ->.
  { unfold pose_map. cbn [st_chans st_h st_w]. rewrite Hinit.
    rewrite !threshold_in_place_fmap. fold F. fold init. rewrite Hidem. reflexivity. }
  fold x1. rewrite Hsame. split; reflexivity.
Qed.

Lemma pose_twice_witness :
  let s := Stack 1 1 [[[0.9]]; [[0.2]]]%float in
  let x := World [[Pixel 1 2 3]] (Heatmaps s) [] [] in
  let first := create_output_image (cv := Reference.cv2 []) "POSE" "" x in
  (create_output_image (cv := Reference.cv2 []) "POSE" "" first.2).1
  = Ok (Fresh [[Pixel 1 257 3]]).
Proof.
  intros s x first.
  destruct (pose_twice (cv := Reference.cv2 []) s "" x eq_refl) as [Hres _].
  etrans; [exact Hres | reflexivity].
Defined.

Lemma detections_zero view i j :
  detections view i j = 0 ↔ Forall (λ m, above i j m = false) view.
Proof.
  unfold detections. induction view as [|m view IH]; simpl.
  - split; [constructor | reflexivity].
  - destruct (above i j m) eqn:E; simpl.
    + split; [lia|]. intros H. apply Forall_cons_1 in H as [H _].
      simpl in H. congruence.
    + rewrite IH. split; [intros H; constructor; auto|].
      intros H. apply Forall_cons_1 in H as [_ H]. exact H.
Qed.

Lemma detections_bounds view i j :
  0 ≤ detections view i j ≤ Z.of_nat (length view).
Proof.
  unfold detections. induction view as [|m view IH]; simpl; [lia|].
  destruct (above i j m); simpl; lia.
Qed.

Lemma pose_map_cell (s : stack) i j :
  Forall (Np.has_shape (st_h s) (st_w s)) (st_chans s) →
  (i < st_h s)%nat → (j < st_w s)%nat →
  cell (pose_map s) i j = Some (255 * detections (removelast (st_chans s)) i j).
Proof.
  intros Hshape Hi Hj. rewrite pose_map_sum. unfold Np.sum_axis0.
  rewrite (cell_sum_thresholded _ i j _ 0 (cell_zeros _ _ _ _ Hi Hj)).
  - f_equal.
  - apply Forall_removelast. eapply Forall_impl; [exact Hshape|].
    intros m Hm. eapply cell_in_shape; eassumption.
Qed.

(** The mask POSE builds marks a position exactly when at least one of the
    class channels (all but the last) is above the cutoff there, and its
    value never exceeds 255 times the number of class channels. *)
Theorem pose_marks_detections (s : stack) (i j : nat) :
  Forall (Np.has_shape (st_h s) (st_w s)) (st_chans s) →
  (i < st_h s)%nat → (j < st_w s)%nat →
  ∃ v, cell (pose_map s) i j = Some v
       ∧ (v = 0 ↔ Forall (λ m, above i j m = false) (removelast (st_chans s)))
       ∧ 0 ≤ v ≤ 255 * Z.of_nat (length (st_chans s) - 1).
Proof.
  intros Hshape Hi Hj. eexists. split; [apply pose_map_cell; assumption|].
  pose proof (detections_bounds (removelast (st_chans s)) i j) as Hb.
  split.
  - rewrite <- detections_zero. lia.
  - assert (length (removelast (st_chans s)) = (length (st_chans s) - 1)%nat) as Hlen
      by (rewrite removelast_firstn_len, length_take; lia).
    rewrite Hlen in Hb. lia.
Qed.

Lemma pose_marks_detections_witness :
  let s := Stack 1 2 [[[0.1; 0.7]]; [[0.2; 0.8]]; [[0.9; 0.9]]]%float in
  cell (pose_map s) 0 0 = Some 0 ∧ cell (pose_map s) 0 1 = Some 510.
Proof.
  intros s.
  destruct (pose_marks_detections s 0 0 ltac:(repeat constructor)
              ltac:(simpl; lia) ltac:(simpl; lia)) as (v & Hv & _).
  split; [|reflexivity].
  etrans; [exact Hv|]. injection Hv as <-. reflexivity.
Defined.

(** The last channel of the stack has no part in what POSE returns. *)
Theorem pose_ignores_last_channel `{cv : Cv2} (h w : nat)
    (classes : list (list (list float))) (a b : list (list float))
    (g : string) (x y : world) :
  output_buf x = Heatmaps (Stack h w (classes ++ [a])) →
  output_buf y = Heatmaps (Stack h w (classes ++ [b])) →
  image_buf x = image_buf y →
  (create_output_image "POSE" g x).1 = (create_output_image "POSE" g y).1.
Proof.
  intros Hx Hy Himg. rewrite !dispatch_pose, (pose_run _ x Hx), (pose_run _ y Hy).
  assert (pose_map (Stack h w (classes ++ [a])) = pose_map (Stack h w (classes ++ [b])))
    as -> by (unfold pose_map; simpl; rewrite !removelast_last; reflexivity).
  unfold add_mask, get_image, bind, of_option. simpl. rewrite Himg.
  destruct (Np.add _ _); reflexivity.
Qed.

Lemma pose_ignores_last_channel_witness :
  let x := World [[Pixel 1 2 3]] (Heatmaps (Stack 1 1 [[[0.9]]; [[0.2]]]%float)) [] [] in
  let y := World [[Pixel 1 2 3]] (Heatmaps (Stack 1 1 [[[0.9]]; [[0.8]]]%float)) [] [] in
  (create_output_image (cv := Reference.cv2 []) "POSE" "" x).1
  = (create_output_image (cv := Reference.cv2 []) "POSE" "" y).1.
Proof.
  intros x y.
  exact (pose_ignores_last_channel (cv := Reference.cv2 []) 1 1 [[[0.9%float]]]
           [[0.2%float]] [[0.8%float]] "" x y eq_refl eq_refl eq_refl).
Defined.

Lemma add_zero_mask h w (img : image) :
  Np.has_shape h w img →
  zip_with (zip_with Np.add_px) img (get_mask (Np.zeros h w)) = img.
Proof.
  intros [Hh Hw]. revert h Hh.
  induction img as [|row img IH]; intros h Hh; [reflexivity|].
  destruct h as [|h]; [discriminate|].
  apply Forall_cons_1 in Hw as [Hrow Hw]. simpl. f_equal.
  - clear IH Hh Hw. revert w Hrow.
    induction row as [|[b gr r] row IH]; intros w Hrow; [reflexivity|].
    destruct w as [|w]; [discriminate|]. simpl. f_equal.
    + unfold Np.add_px. simpl. f_equal; lia.
    + apply IH. simpl in Hrow. lia.
  - apply IH; [exact Hw | simpl in Hh; lia].
Qed.

(** With no class channel (a stack of one channel, or of none) POSE marks
    nothing: on an image of the stack's shape it returns a new array equal
    to the image. *)
Theorem pose_without_classes `{cv : Cv2} (s : stack) (g : string) (x : world) :
  output_buf x = Heatmaps s →
  (length (st_chans s) ≤ 1)%nat →
  Np.has_shape (st_h s) (st_w s) (image_buf x) →
  (create_output_image "POSE" g x).1 = Ok (Fresh (image_buf x)).
Proof.
  intros Hout Hlen Hshape. rewrite dispatch_pose, (pose_run s x Hout).
  assert (pose_map s = Np.zeros (st_h s) (st_w s)) as ->.
  { unfold pose_map. destruct (st_chans s) as [|a [|b l]]; simpl in *;
      [reflexivity | reflexivity | lia]. }
  unfold add_mask, get_image, bind. simpl.
  assert (Np.has_shape (st_h s) (st_w s) (Np.zeros (st_h s) (st_w s))) as Hz.
  { split; [apply length_replicate|]. apply Forall_replicate, length_replicate. }
  rewrite (add_same_shape _ _ _ _ Hshape (get_mask_shape _ _ _ Hz)). simpl.
  rewrite (add_zero_mask _ _ _ Hshape). reflexivity.
Qed.

Lemma pose_without_classes_witness :
  let x := World [[Pixel 1 2 3]] (Heatmaps (Stack 1 1 [[[0.9%float]]])) [] [] in
  (create_output_image (cv := Reference.cv2 []) "POSE" "" x).1
  = Ok (Fresh [[Pixel 1 2 3]]).
Proof.
  intros x.
  exact (pose_without_classes (cv := Reference.cv2 []) _ "" x eq_refl
           ltac:(simpl; lia) ltac:(repeat constructor)).
Defined.

(** ** Shapes in [image + mask] (lines 52 to 54, 75 and 83) *)

Lemma mapM_total {A B} (f : A → option B) (g : A → B) (l : list A) :
  (∀ a, f a = Some (g a)) → mapM f l = Some (g <$> l).
Proof.
  intros Hf. induction l as [|a l IH]; [reflexivity|].
  cbn. rewrite Hf. cbn. rewrite IH. reflexivity.
Qed.

Lemma broadcast_one_r {A B C} (f : A → B → option C) (g : A → C) la b :
  (∀ a, f a b = Some (g a)) → Np.broadcast f la [b] = Some (g <$> la).
Proof.
  intros Hf. unfold Np.broadcast. case_decide as Hlen.
  - destruct la as [|a [|a' la]]; try discriminate. cbn. rewrite Hf. reflexivity.
  - destruct la as [|a [|a' la]].
    + reflexivity.
    + destruct Hlen. reflexivity.
    + apply mapM_total, Hf.
Qed.

Lemma broadcast_length_mismatch {A B C} (f : A → B → option C) la lb :
  length la ≠ length lb → length la ≠ 1%nat → length lb ≠ 1%nat →
  Np.broadcast f la lb = None.
Proof.
  intros Hne Ha Hb. unfold Np.broadcast. rewrite decide_False by exact Hne.
  destruct la as [|a [|a' la]], lb as [|b [|b' lb]]; simpl in *;
    try reflexivity; lia || (destruct Ha; reflexivity) || (destruct Hb; reflexivity).
Qed.

Lemma broadcast_all_fail {A B C} (f : A → B → option C) la lb :
  la ≠ [] → lb ≠ [] →
  (∀ a b, a ∈ la → b ∈ lb → f a b = None) →
  Np.broadcast f la lb = None.
Proof.
  intros Ha Hb Hf.
  destruct la as [|a la]; [destruct Ha; reflexivity|].
  destruct lb as [|b lb]; [destruct Hb; reflexivity|].
  assert (f a b = None) as Hab by (apply Hf; left).
  unfold Np.broadcast. case_decide.
  - cbn. rewrite Hab. reflexivity.
  - destruct la as [|a' la].
    + cbn. rewrite Hab. reflexivity.
    + destruct lb as [|b' lb]; [|reflexivity].
      cbn. rewrite Hab. reflexivity.
Qed.

(** A mask whose shape differs from the image's on an axis where neither
    has length one cannot be added: the branch raises [ValueError] and
    nothing in the heap has changed. *)
Theorem mask_shape_mismatch (m : list (list Z)) (x : world) (h1 w1 h2 w2 : nat) :
  Np.has_shape h1 w1 (image_buf x) →
  Np.has_shape h2 w2 m →
  (h1 ≠ h2 ∧ h1 ≠ 1 ∧ h2 ≠ 1)%nat
  ∨ (0 < h1 ∧ 0 < h2 ∧ w1 ≠ w2 ∧ w1 ≠ 1 ∧ w2 ≠ 1)%nat →
  add_mask m x = (Raise ValueError, x).
Proof.
  intros [Hh1 Hw1] Hm Hcase.
  destruct (get_mask_shape _ _ _ Hm) as [Hh2 Hw2].
  assert (Np.add (image_buf x) (get_mask m) = None) as Hadd.
  { unfold Np.add. destruct Hcase as [(Hne & H1 & H2)|(Hp1 & Hp2 & Hne & H1 & H2)].
    - apply broadcast_length_mismatch; lia.
    - apply broadcast_all_fail.
      + intros E. rewrite E in Hh1. simpl in Hh1. lia.
      + intros E. rewrite E in Hh2. simpl in Hh2. lia.
      + intros ra rb Hra Hrb.
        rewrite Forall_forall in Hw1, Hw2.
        apply broadcast_length_mismatch;
          rewrite ?(Hw1 ra Hra), ?(Hw2 rb Hrb); lia. }
  unfold add_mask, get_image, bind. simpl. rewrite Hadd. reflexivity.
Qed.

Lemma mask_shape_mismatch_witness :
  let x := World [[Pixel 1 2 3; Pixel 4 5 6; Pixel 7 8 9]] (Ints []) [] [] in
  add_mask [[255; 0]] x = (Raise ValueError, x).
Proof.
  intros x.
  exact (mask_shape_mismatch [[255; 0]] x 1 3 1 2 ltac:(repeat constructor)
           ltac:(repeat constructor) ltac:(right; lia)).
Defined.

(** A mask of a single cell is stretched over the whole image, whatever
    the image's shape: TEXT on a stack whose channel 1 is a 1 × 1 map adds
    that cell's thresholded value to the green sample of every pixel. *)
Theorem text_one_cell_marks_everything `{cv : Cv2} (s : stack) (p : float)
    (g : string) (x : world) :
  output_buf x = Heatmaps s →
  st_chans s !! 1%nat = Some [[p]] →
  create_output_image "TEXT" g x
  = (Ok (Fresh ((λ row : list pixel,
                   (λ q, Pixel (blue q) (green q + threshold p) (red q)) <$> row)
                <$> image_buf x)), x).
Proof.
  intros Hout Hchan. rewrite dispatch_text.
  unfold text, text_map, heatmaps, get_output, bind at 1 2. rewrite Hout.
  unfold ret at 1.
  rewrite (index_lookup (st_chans s) 1 _ Hchan : index (st_chans s) 1 = _).
  unfold and_then, of_result, add_mask, get_image, bind. simpl.
  unfold Np.add.
  erewrite (broadcast_one_r _ (λ row : list pixel,
              (λ q, Pixel (blue q) (green q + threshold p) (red q)) <$> row)).
  - reflexivity.
  - intros row. apply broadcast_one_r. intros [b gr r].
    unfold Np.add_px. simpl. do 2 f_equal; lia.
Qed.

Lemma text_one_cell_marks_everything_witness :
  let s := Stack 1 1 [[[0.1]]; [[0.9]]]%float in
  let x := World [[Pixel 1 2 3; Pixel 4 5 6]; [Pixel 7 8 9; Pixel 0 0 0]]
                 (Heatmaps s) [] [] in
  (create_output_image (cv := Reference.cv2 []) "TEXT" "" x).1
  = Ok (Fresh [[Pixel 1 257 3; Pixel 4 260 6]; [Pixel 7 263 9; Pixel 0 255 0]]).
Proof.
  intros s x.
  rewrite (text_one_cell_marks_everything (cv := Reference.cv2 []) s 0.9%float "" x
             eq_refl eq_refl).
  reflexivity.
Defined.

(** ** TEXT and the array it is given (lines 77 to 84) *)

Lemma text_reads_only_heap : preserved (λ x, x) text.
Proof. unfold text, heatmaps, add_mask. preserve. Qed.

(** TEXT changes nothing in the heap, neither the image nor the stack, and
    it raises [IndexError] exactly when the stack has fewer than two
    channels. *)
Theorem text_reads_only `{cv : Cv2} (s : stack) (g : string) (x : world) :
  output_buf x = Heatmaps s →
  (create_output_image "TEXT" g x).2 = x
  ∧ ((create_output_image "TEXT" g x).1 = Raise IndexError
     ↔ (length (st_chans s) < 2)%nat).
Proof.
  intros Hout. rewrite dispatch_text. split; [apply text_reads_only_heap|].
  unfold text, text_map, heatmaps, get_output, bind at 1 2. rewrite Hout.
  unfold ret at 1. unfold of_result, and_then, add_mask, get_image, bind, of_option.
  simpl.
  destruct (st_chans s !! 1%nat) as [m|] eqn:E.
  - rewrite (index_lookup (st_chans s) 1 _ E : index (st_chans s) 1 = _). simpl.
    apply lookup_lt_Some in E.
    destruct (Np.add _ _); simpl; split; (discriminate || lia).
  - rewrite (index_beyond (st_chans s) 1 E : index (st_chans s) 1 = _). simpl.
    apply lookup_ge_None in E. split; [lia | reflexivity].
Qed.

Lemma text_reads_only_witness :
  let x := World [[Pixel 1 2 3]] (Heatmaps (Stack 1 1 [[[0.9%float]]])) [] [] in
  create_output_image (cv := Reference.cv2 []) "TEXT" "" x = (Raise IndexError, x).
Proof.
  intros x.
  destruct (text_reads_only (cv := Reference.cv2 []) _ "" x eq_refl) as [Hheap Hres].
  apply injective_projections; simpl; [|exact Hheap].
  apply Hres. simpl. lia.
Defined.

(** ** The categorical branches (lines 85 to 96 and 127 to 138) *)

(** The decoders answer from the closed vocabularies or not at all: a
    decoded colour is one of [CAR_COLORS], a decoded type one of
    [CAR_TYPES], a decoded gender one of [GENDER_TYPES], the age is the
    first entry of the output as it stands, and the only exception either
    can raise is [IndexError]. *)
Theorem decoders_stay_in_vocabulary (output : list Z) :
  match decodeCarMeta output with
  | Ok (color, type) => color ∈ CAR_COLORS ∧ type ∈ CAR_TYPES
  | Raise e => e = IndexError
  end
  ∧ match decodeGender output with
    | Ok (age, gender) => head output = Some age ∧ gender ∈ GENDER_TYPES
    | Raise e => e = IndexError
    end.
Proof.
  split.
  - unfold decodeCarMeta, and_then.
    destruct (index output 0) as [i0|e] eqn:E0; [|exact (index_raises _ _ _ E0)].
    destruct (index CAR_COLORS i0) as [c|e] eqn:Ec; [|exact (index_raises _ _ _ Ec)].
    destruct (index output 1) as [i1|e] eqn:E1; [|exact (index_raises _ _ _ E1)].
    destruct (index CAR_TYPES i1) as [t|e] eqn:Et; [|exact (index_raises _ _ _ Et)].
    split; eapply index_Ok_elem; eassumption.
  - unfold decodeGender, and_then.
    destruct (index output 0) as [age|e] eqn:E0; [|exact (index_raises _ _ _ E0)].
    destruct (index output 1) as [i1|e] eqn:E1; [|exact (index_raises _ _ _ E1)].
    destruct (index GENDER_TYPES i1) as [t|e] eqn:Et; [|exact (index_raises _ _ _ Et)].
    split; [|eapply index_Ok_elem; eassumption].
    destruct output as [|a l]; [discriminate E0|].
    change (index (a :: l) 0) with (index (a :: l) (Z.of_nat 0)) in E0.
    rewrite (index_lookup (a :: l) 0 a eq_refl) in E0. simpl. congruence.
Qed.

(** CAR_META and GENDER need two entries: on a shorter output they raise
    [IndexError] before anything is drawn, and the heap is as it was. *)
Theorem categorical_needs_two_entries `{cv : Cv2} (output : list Z) (g : string)
    (x : world) :
  output_buf x = Ints output →
  (length output < 2)%nat →
  create_output_image "CAR_META" g x = (Raise IndexError, x)
  ∧ create_output_image "GENDER" g x = (Raise IndexError, x).
Proof.
  intros Hout Hlen.
  assert (index output 1 = Raise IndexError) as H1.
  { apply (index_beyond output 1). apply lookup_ge_None. lia. }
  assert (decodeCarMeta output = Raise IndexError) as Hcar.
  { unfold decodeCarMeta, and_then.
    destruct (index output 0) as [i0|e] eqn:E0;
      [|f_equal; exact (index_raises _ _ _ E0)].
    destruct (index CAR_COLORS i0) as [c|e] eqn:Ec;
      [|f_equal; exact (index_raises _ _ _ Ec)].
    rewrite H1. reflexivity. }
  assert (decodeGender output = Raise IndexError) as Hgender.
  { unfold decodeGender, and_then.
    destruct (index output 0) as [i0|e] eqn:E0;
      [|f_equal; exact (index_raises _ _ _ E0)].
    rewrite H1. reflexivity. }
  split.
  - change (create_output_image "CAR_META" g) with car_meta.
    unfold car_meta, ints, get_output, bind, of_result. simpl.
    rewrite Hout. simpl. rewrite Hcar. reflexivity.
  - change (create_output_image "GENDER" g) with gender.
    unfold gender, ints, get_output, bind, of_result. simpl.
    rewrite Hout. simpl. rewrite Hgender. reflexivity.
Qed.

Lemma categorical_needs_two_entries_witness :
  let x := World [[Pixel 1 2 3]] (Ints [3]) [] [] in
  create_output_image (cv := Reference.cv2 []) "CAR_META" "" x = (Raise IndexError, x).
Proof.
  intros x.
  exact (proj1 (categorical_needs_two_entries (cv := Reference.cv2 []) [3] "" x
                  eq_refl ltac:(simpl; lia))).
Defined.

(** On decodable indices CAR_META draws one text on the caller's image,
    in place, and returns that image: "Color: c, Type: t" in green, with
    anchor, font scale and thickness (50, 100), 2 and 3 times a factor that
    is the image height divided by 1000, and 1 at least, so 1 for every
    image of fewer than 2000 rows. *)
Theorem car_meta_annotation `{cv : Cv2} (output : list Z) (color type : string)
    (g : string) (x : world) :
  output_buf x = Ints output →
  decodeCarMeta output = Ok (color, type) →
  ∃ s,
    create_output_image "CAR_META" g x
    = (Ok TheImage,
       draw_all [PutText ("Color: " +:+ color +:+ ", Type: " +:+ type)
                         (50 * s, 100 * s) FONT_HERSHEY_SIMPLEX
                         (float_of_int (2 * s)) (Pixel 0 255 0) (3 * s)] x)
    ∧ s = Z.max (Z.of_nat (length (image_buf x)) / 1000) 1
    ∧ 1 ≤ s
    ∧ ((length (image_buf x) < 2000)%nat → s = 1).
Proof.
  intros Hout Hdec. eexists. split; [|split; [reflexivity|]].
  - change (create_output_image "CAR_META" g) with car_meta.
    unfold car_meta, ints, get_output, get_image, bind, of_result. simpl.
    rewrite Hout. simpl. rewrite Hdec. reflexivity.
  - split; [lia|]. intros Hsmall.
    assert (Z.of_nat (length (image_buf x)) / 1000 ≤ 1)
      by (apply Z.lt_succ_r, Z.div_lt_upper_bound; lia).
    lia.
Qed.

Lemma car_meta_annotation_witness :
  let x := World [[Pixel 1 2 3]] (Ints [3; 2]) [] [] in
  drawn (create_output_image (cv := Reference.cv2 []) "CAR_META" "" x).2
  = [PutText "Color: red, Type: truck" (50, 100) 0 2%float (Pixel 0 255 0) 3].
Proof.
  intros x.
  destruct (car_meta_annotation (cv := Reference.cv2 []) [3; 2] "red" "truck" "" x
              eq_refl eq_refl) as (s & Hrun & _ & _ & Hs).
  rewrite Hrun. rewrite (Hs ltac:(simpl; lia)). reflexivity.
Defined.

(** ** The labels of FACIAL (lines 98 to 112) *)

Lemma label_reads_back (k : nat) :
  landmark_of_label ("p" +:+ str (Z.of_nat k)) = Some k.
Proof.
  change ("p" +:+ str (Z.of_nat k)) with (String "p"%char (str (Z.of_nat k))).
  unfold landmark_of_label, str.
  rewrite NilZero.isi.
  - simpl. rewrite DecimalZ.of_to, Nat2Z.id. reflexivity.
  - destruct k; simpl; [discriminate|].
    intros [= H]. exact (DecimalPos.Unsigned.to_uint_nonnil _ H).
  - destruct k; simpl; discriminate.
Qed.

(** Every text FACIAL draws names the landmark it is drawn at: counted
    among the calls of this run, it is call 2k + 1 for a landmark k of the
    list, anchored at that landmark's point, and it reads back as k.  So
    no two landmarks get the same label. *)
Theorem facial_labels_name_landmarks `{cv : Cv2} (pts : list Z) (g : string)
    (x : world) (n : nat) (text : string) (org : Z * Z) (fontFace : Z)
    (fontScale : float) (color : pixel) (thickness : Z) :
  output_buf x = Ints pts →
  drawn (create_output_image "FACIAL" g x).2 !! (length (drawn x) + n)%nat
  = Some (PutText text org fontFace fontScale color thickness) →
  ∃ k, n = (2 * k + 1)%nat
       ∧ (2 * k + 1 < length pts)%nat
       ∧ landmark_of_label text = Some k
       ∧ org = landmark pts k.
Proof.
  intros Hout. change (create_output_image "FACIAL" g) with facial.
  rewrite (facial_any pts x Hout). cbn [snd]. unfold draw_all. cbn [drawn].
  rewrite lookup_app_r by lia.
  replace (length (drawn x) + n - length (drawn x))%nat with n by lia.
  set (N := accepted pts). intros Hcall.
  pose proof (lookup_lt_Some _ _ _ Hcall) as Hn. rewrite markers_length in Hn.
  assert (2 * N ≤ length pts)%nat as HN.
  { pose proof (leading_le (landmark_fits pts) (length pts / 2) 0) as Hle.
    fold (accepted pts) in Hle. fold N in Hle.
    pose proof (Nat.Div0.mul_div_le (length pts) 2). lia. }
  destruct (Nat.Even_or_Odd n) as [[k ->]|[k ->]].
  - destruct (markers_lookup pts N 0 k ltac:(lia)) as [Hcircle _].
    rewrite Hcircle in Hcall. discriminate.
  - destruct (markers_lookup pts N 0 k ltac:(lia)) as [_ Htext].
    rewrite Htext in Hcall. injection Hcall as <- <- _ _ _ _.
    exists k. split; [reflexivity|]. split; [lia|].
    split; [apply label_reads_back | reflexivity].
Qed.

Lemma facial_labels_name_landmarks_witness :
  let x := World [[Pixel 0 0 0]] (Ints [10; 11; 20; 21]) [] [] in
  ∃ k, 3%nat = (2 * k + 1)%nat ∧ landmark_of_label "p1" = Some k.
Proof.
  intros x.
  destruct (facial_labels_name_landmarks (cv := Reference.cv2 []) [10; 11; 20; 21]
              "" x 3 "p1" (20, 21) 0 0.7%float (Pixel 255 255 255) 2
              eq_refl eq_refl) as (k & Hk & _ & Hlabel & _).
  exists k. split; assumption.
Defined.

(** ** GLASS: what it needs and what it writes (lines 114 to 126) *)

(** Without its asset GLASS cannot go through: when [imread] finds nothing
    at the path the call raises, whatever the landmarks, and has written
    nothing; with landmarks that give a scale, the exception is the
    [AttributeError] of reading the shape of [None]. *)
Theorem glass_needs_its_asset `{cv : Cv2} (g : string) (x : world) :
  imread g = None →
  ∃ e, create_output_image "GLASS" g x = (Raise e, x)
       ∧ (∀ output sc wd, output_buf x = Ints output → scale output = Ok sc →
                          int_of_float sc = Some wd → e = AttributeError).
Proof.
  intros Hread. change (create_output_image "GLASS" g) with (glass_overlay g).
  unfold glass_overlay, placement, resized_size, ints, get_output, bind, of_result.
  rewrite Hread. simpl.
  destruct (output_buf x) as [s|output]; simpl.
  - eexists. split; [reflexivity|]. discriminate.
  - destruct (scale output) as [sc|e] eqn:Es; simpl.
    + destruct (int_of_float sc) as [wd|] eqn:Ei; simpl.
      * eexists. split; [reflexivity|]. reflexivity.
      * eexists. split; [reflexivity|].
        intros output' sc' wd' [= <-] Hs Hi. congruence.
    + eexists. split; [reflexivity|].
      intros output' sc' wd' [= <-] Hs Hi. congruence.
Qed.

Lemma glass_needs_its_asset_witness :
  let x := World [[Pixel 1 2 3]] (Ints (Runs.landmarks [(68%nat, 3); (69%nat, 4)]))
                 [] [] in
  create_output_image (cv := Reference.cv2 []) "GLASS" "missing.png" x
  = (Raise AttributeError, x).
Proof.
  intros x.
  destruct (glass_needs_its_asset (cv := Reference.cv2 []) "missing.png" x eq_refl)
    as (e & Hrun & He).
  rewrite Hrun. f_equal. f_equal.
  exact (He _ 5%float 5 eq_refl eq_refl eq_refl).
Defined.

(** GLASS reads landmark coordinates up to index 69: on a list of fewer
    than 70 it raises [IndexError] and has written nothing, whether or
    not there is an asset at the path. *)
Theorem glass_needs_seventy_coordinates `{cv : Cv2} (pts : list Z) (g : string)
    (x : world) :
  output_buf x = Ints pts →
  (length pts < 70)%nat →
  create_output_image "GLASS" g x = (Raise IndexError, x).
Proof.
  intros Hout Hlen. change (create_output_image "GLASS" g) with (glass_overlay g).
  assert (scale pts = Raise IndexError) as Hscale.
  { unfold scale, and_then.
    destruct (index pts 36) as [x36|e] eqn:E36;
      [|f_equal; exact (index_raises _ _ _ E36)].
    destruct (index pts 68) as [x68|e] eqn:E68;
      [|f_equal; exact (index_raises _ _ _ E68)].
    destruct (index pts 37) as [y37|e] eqn:E37;
      [|f_equal; exact (index_raises _ _ _ E37)].
    rewrite (index_beyond pts 69 ltac:(apply lookup_ge_None; lia)
             : index pts 69 = _).
    reflexivity. }
  unfold glass_overlay, placement, ints, get_output, bind, of_result. simpl.
  rewrite Hout. simpl. rewrite Hscale. reflexivity.
Qed.

Lemma glass_needs_seventy_coordinates_witness :
  let x := World [[Pixel 1 2 3]] (Ints [10; 10; 20; 20]) [] [] in
  create_output_image (cv := Reference.cv2 [("g.png"%string, [[Pixel4 1 2 3 255]])])
    "GLASS" "g.png" x
  = (Raise IndexError, x).
Proof.
  intros x.
  exact (glass_needs_seventy_coordinates
           (cv := Reference.cv2 [("g.png"%string, [[Pixel4 1 2 3 255]])])
           [10; 10; 20; 20] "g.png" x eq_refl ltac:(simpl; lia)).
Defined.

Lemma for_each_idle {A} (xs : list A) (body : A → M unit) (x : world) :
  (∀ a, a ∈ xs → body a x = (Ok (), x)) → for_each xs body x = (Ok (), x).
Proof.
  induction xs as [|a xs IH]; intros Hbody; [reflexivity|].
  cbn [for_each]. unfold bind. rewrite (Hbody a) by left.
  apply IH. intros b Hb. apply Hbody. right. exact Hb.
Qed.

(** An asset that is transparent throughout is a no-op wherever it is
    placed, also outside the image: GLASS returns the caller's buffer and
    the heap is as it was. *)
Theorem transparent_asset_changes_nothing `{cv : Cv2} (g : string) (x : world)
    (glasses : asset) (tv th : Z) (gw gh : nat) :
  (placement g x).1 = Ok (glasses, (tv, th)) →
  Np.has_shape gw gh glasses →
  Forall (Forall (λ px, alpha4 px = 0)) glasses →
  create_output_image "GLASS" g x = (Ok TheImage, x).
Proof.
  intros Hplace Hshape Hclear.
  rewrite (glass_overlay_run _ _ _ _ _ Hplace). unfold bind.
  assert (overlay glasses tv th x = (Ok (), x)) as ->; [|reflexivity].
  unfold overlay. apply for_each_idle. intros i Hi%elem_of_seq.
  apply for_each_idle. intros j Hj%elem_of_seq.
  destruct Hshape as [Hh Hw]. unfold Np.height in Hi.
  destruct (lookup_lt_is_Some_2 glasses i) as [row Hrow]; [lia|].
  pose proof (Forall_lookup_1 _ _ _ _ Hw Hrow) as Hlen. simpl in Hlen.
  assert (Np.width glasses = gh) as Hwidth
    by (apply (width_in_shape gw); [split; assumption | lia]).
  destruct (lookup_lt_is_Some_2 row j) as [px Hpx]; [lia|].
  pose proof (Forall_lookup_1 _ _ _ _ Hclear Hrow) as Hrowclear.
  pose proof (Forall_lookup_1 _ _ _ _ Hrowclear Hpx) as Hzero. simpl in Hzero.
  unfold overlay_cell, bind, of_option. rewrite Hrow. simpl. rewrite Hpx. simpl.
  rewrite decide_True by exact Hzero. reflexivity.
Qed.

Lemma transparent_asset_changes_nothing_witness :
  let cv := Reference.cv2 [("g.png"%string, [[Pixel4 1 2 3 0]])] in
  let x := World [[Runs.black]]
             (Ints (Runs.landmarks [(68%nat, 1); (0%nat, 50); (4%nat, 50)])) [] [] in
  (placement "g.png" x).1 = Ok ([[Pixel4 1 2 3 0]], (0, 49))
  ∧ create_output_image "GLASS" "g.png" x = (Ok TheImage, x).
Proof.
  intros cv x.
  assert ((placement "g.png" x).1 = Ok ([[Pixel4 1 2 3 0]], (0, 49))) as Hplace
    by reflexivity.
  split; [exact Hplace|].
  exact (transparent_asset_changes_nothing "g.png" x _ _ _ 1 1 Hplace
           ltac:(repeat constructor) ltac:(repeat constructor)).
Defined.

Lemma before_step i j i' j' :
  before i (S j) i' j' = before i j i' j' || ((i' =? i)%nat && (j' =? j)%nat).
Proof.
  unfold before.
  destruct (Nat.ltb_spec i' i), (Nat.eqb_spec i' i), (Nat.ltb_spec j' (S j)),
    (Nat.ltb_spec j' j), (Nat.eqb_spec j' j); simpl; try reflexivity; lia.
Qed.

Lemma overlay_pixel_ext seen1 seen2 (glasses : asset) tv th r c p :
  (∀ i j, is_Some (cell glasses i j) → seen1 i j = seen2 i j) →
  overlay_pixel seen1 glasses tv th r c p = overlay_pixel seen2 glasses tv th r c p.
Proof.
  intros Hseen. unfold overlay_pixel.
  destruct (cell glasses _ _) as [px|] eqn:E; [|reflexivity].
  rewrite (Hseen _ _ (mk_is_Some _ _ E)). reflexivity.
Qed.

(** A loop over [0, ..., n - 1] whose body takes an invariant from [k] to
    [k + 1] without raising. *)
Lemma for_each_counted (Inv : nat → world → Prop) (body : nat → M unit) n :
  (∀ k y, (k < n)%nat → Inv k y →
          (body k y).1 = Ok () ∧ Inv (S k) (body k y).2) →
  ∀ y, Inv 0%nat y →
       (for_each (seq 0 n) body y).1 = Ok ()
       ∧ Inv n (for_each (seq 0 n) body y).2.
Proof.
  intros Hbody.
  assert (∀ m a y, (a + m = n)%nat → Inv a y →
            (for_each (seq a m) body y).1 = Ok ()
            ∧ Inv n (for_each (seq a m) body y).2) as Hgen.
  { induction m as [|m IH]; intros a y Ham Hy.
    - simpl. replace n with a by lia. auto.
    - cbn [seq for_each]. unfold bind.
      destruct (Hbody a y ltac:(lia) Hy) as [Hok Hnext].
      destruct (body a y) as [[[]|e] y']; simpl in Hok, Hnext; [|discriminate].
      apply IH; [lia | exact Hnext]. }
  intros y Hy. apply Hgen; [lia | exact Hy].
Qed.

Lemma overlay_pixel_off_target (glasses : asset) tv th i j r c p :
  ¬ (Z.of_nat r = Z.of_nat i + tv ∧ Z.of_nat c = Z.of_nat j + th) →
  overlay_pixel (before i (S j)) glasses tv th r c p
  = overlay_pixel (before i j) glasses tv th r c p.
Proof.
  intros Htarget. unfold overlay_pixel. cbv zeta.
  destruct (cell glasses (Z.to_nat (Z.of_nat r - tv)) (Z.to_nat (Z.of_nat c - th)));
    [|reflexivity].
  rewrite before_step.
  destruct (Nat.eqb_spec (Z.to_nat (Z.of_nat r - tv)) i) as [Hr|Hr];
    destruct (Nat.eqb_spec (Z.to_nat (Z.of_nat c - th)) j) as [Hc|Hc];
    simpl; rewrite ?orb_false_r; try reflexivity.
  destruct (Z.leb_spec tv (Z.of_nat r)), (Z.leb_spec th (Z.of_nat c));
    simpl; try reflexivity.
  destruct Htarget. lia.
Qed.

Lemma overlay_pixel_transparent (glasses : asset) tv th i j px r c p :
  cell glasses i j = Some px → alpha4 px = 0 →
  overlay_pixel (before i (S j)) glasses tv th r c p
  = overlay_pixel (before i j) glasses tv th r c p.
Proof.
  intros Hpx Hzero. unfold overlay_pixel. cbv zeta.
  destruct (cell glasses (Z.to_nat (Z.of_nat r - tv)) (Z.to_nat (Z.of_nat c - th)))
    as [px'|] eqn:E; [|reflexivity].
  rewrite before_step.
  destruct (Nat.eqb_spec (Z.to_nat (Z.of_nat r - tv)) i) as [Hr|Hr];
    destruct (Nat.eqb_spec (Z.to_nat (Z.of_nat c - th)) j) as [Hc|Hc];
    simpl; rewrite ?orb_false_r; try reflexivity.
  rewrite Hr, Hc, Hpx in E. injection E as <-.
  replace (alpha4 px =? 0) with true by (symmetry; apply Z.eqb_eq; exact Hzero).
  simpl. rewrite !andb_false_r. reflexivity.
Qed.

Lemma overlay_pixel_on_target (glasses : asset) tv th i j px r c p :
  cell glasses i j = Some px → alpha4 px ≠ 0 →
  0 ≤ tv → 0 ≤ th →
  Z.of_nat r = Z.of_nat i + tv → Z.of_nat c = Z.of_nat j + th →
  overlay_pixel (before i (S j)) glasses tv th r c p = drop_alpha px.
Proof.
  intros Hpx Hopaque Htv Hth Hr Hc. unfold overlay_pixel. cbv zeta.
  replace (Z.to_nat (Z.of_nat r - tv)) with i by lia.
  replace (Z.to_nat (Z.of_nat c - th)) with j by lia.
  rewrite Hpx.
  replace (tv <=? Z.of_nat r) with true by (symmetry; apply Z.leb_le; lia).
  replace (th <=? Z.of_nat c) with true by (symmetry; apply Z.leb_le; lia).
  replace (alpha4 px =? 0) with false by (symmetry; apply Z.eqb_neq; exact Hopaque).
  unfold before. rewrite Nat.eqb_refl.
  replace (j <? S j)%nat with true by (symmetry; apply Nat.ltb_lt; lia).
  simpl. rewrite orb_true_r. reflexivity.
Qed.

Lemma cell_bounds {A} gw gh (glasses : list (list A)) i j px :
  Np.has_shape gw gh glasses →
  cell glasses i j = Some px → (i < gw)%nat ∧ (j < gh)%nat.
Proof.
  intros [Hh Hw] (row & Hrow & Hpx)%cell_Some.
  pose proof (Forall_lookup_1 _ _ _ _ Hw Hrow) as Hlen. simpl in Hlen.
  apply lookup_lt_Some in Hrow, Hpx. lia.
Qed.

Section OverlayInside.

Context {cv : Cv2}.
Variables (glasses : asset) (tv th : Z) (gw gh h w : nat) (start : world).
Hypothesis glasses_shape : Np.has_shape gw gh glasses.
Hypothesis rows_inside : 0 ≤ tv ∧ tv + Z.of_nat gw ≤ Z.of_nat h.
Hypothesis cols_inside : 0 ≤ th ∧ th + Z.of_nat gh ≤ Z.of_nat w.

Lemma overlay_cell_inside i j y :
  (i < gw)%nat → (j < gh)%nat → overlaid_up_to glasses tv th h w start i j y →
  (overlay_cell glasses tv th i j y).1 = Ok ()
  ∧ overlaid_up_to glasses tv th h w start i (S j) (overlay_cell glasses tv th i j y).2.
Proof.
  intros Hi Hj (Hshape & Hcells & Ho & Hs & Hd).
  destruct (cell_in_shape _ _ _ _ _ glasses_shape Hi Hj) as [px Hpx].
  pose proof Hpx as (row & Hrow & Hcell)%cell_Some.
  unfold overlay_cell, bind, of_option. rewrite Hrow. simpl. rewrite Hcell. simpl.
  destruct (decide (alpha4 px = 0)) as [Hzero|Hopaque]; simpl.
  - split; [reflexivity|]. split; [exact Hshape|]. split; [|auto].
    intros r c. rewrite Hcells.
    destruct (cell (image_buf start) r c) as [p|]; [|reflexivity].
    simpl. f_equal. symmetry. eapply overlay_pixel_transparent; eassumption.
  - assert (within h (Z.of_nat i + tv)) as Hwr by (unfold within; lia).
    assert (within w (Z.of_nat j + th)) as Hwc by (unfold within; lia).
    destruct (setitem_within _ _ _ _ _ (drop_alpha px) Hshape Hwr Hwc)
      as (a' & -> & Hshape' & Hnew).
    simpl. split; [reflexivity|]. split; [exact Hshape'|]. split; [|auto].
    intros r c. rewrite Hnew.
    rewrite (Z.mod_small (Z.of_nat i + tv)), (Z.mod_small (Z.of_nat j + th)) by lia.
    case_decide as Htarget.
    + destruct Htarget as [Hr Hc].
      destruct (cell_in_shape h w (image_buf y) r c Hshape ltac:(lia) ltac:(lia))
        as [q Hq].
      rewrite Hcells in Hq.
      destruct (cell (image_buf start) r c) as [p|]; [|discriminate].
      simpl. f_equal. symmetry.
      apply (overlay_pixel_on_target glasses tv th i j px); auto; lia.
    + rewrite Hcells. destruct (cell (image_buf start) r c) as [p|]; [|reflexivity].
      simpl. f_equal. symmetry. apply overlay_pixel_off_target. exact Htarget.
Qed.

Lemma overlay_inside_run :
  Np.has_shape h w (image_buf start) →
  (overlay glasses tv th start).1 = Ok ()
  ∧ overlaid_up_to glasses tv th h w start gw 0 (overlay glasses tv th start).2.
Proof.
  intros Hshape. unfold overlay.
  assert (Np.height glasses = gw) as -> by (destruct glasses_shape; assumption).
  apply (for_each_counted (λ i, overlaid_up_to glasses tv th h w start i 0)).
  - intros i y Hi Hy.
    rewrite (width_in_shape _ _ _ glasses_shape) by lia.
    destruct (for_each_counted (overlaid_up_to glasses tv th h w start i)
                (λ j, overlay_cell glasses tv th i j) gh) with (y := y)
      as [Hok (Hs' & Hcells & Hrest)].
    + intros j z Hj Hz. apply overlay_cell_inside; assumption.
    + exact Hy.
    + split; [exact Hok|]. split; [exact Hs'|]. split; [|exact Hrest].
      intros r c. rewrite Hcells.
      destruct (cell (image_buf start) r c) as [p|]; [|reflexivity].
      simpl. f_equal. apply overlay_pixel_ext.
      intros i' j' [px Hpx].
      apply (cell_bounds gw gh _ _ _ _ glasses_shape) in Hpx as [_ Hj'].
      unfold before.
      destruct (Nat.ltb_spec i' i), (Nat.eqb_spec i' i), (Nat.ltb_spec j' gh),
        (Nat.ltb_spec i' (S i)), (Nat.eqb_spec i' (S i)), (Nat.ltb_spec j' 0);
        simpl; try reflexivity; lia.
  - split; [exact Hshape|]. split; [|auto].
    intros r c. destruct (cell (image_buf start) r c) as [p|]; [|reflexivity].
    simpl. f_equal. unfold overlay_pixel. cbv zeta.
    destruct (cell glasses _ _); [|reflexivity].
    unfold before. simpl. rewrite !andb_false_r. reflexivity.
Qed.

End OverlayInside.

(** With the asset placed and lying wholly inside the image, GLASS goes
    through and returns the caller's image.  Every image cell under an
    asset pixel of non-zero alpha holds that pixel's colour channels, every
    other cell holds what it held before, and nothing else on the heap has
    changed. *)
Theorem overlay_inside `{cv : Cv2} (g : string) (x : world)
    (glasses : asset) (tv th : Z) (gw gh h w : nat) :
  (placement g x).1 = Ok (glasses, (tv, th)) →
  Np.has_shape gw gh glasses →
  Np.has_shape h w (image_buf x) →
  0 ≤ tv ∧ tv + Z.of_nat gw ≤ Z.of_nat h →
  0 ≤ th ∧ th + Z.of_nat gh ≤ Z.of_nat w →
  let y := create_output_image "GLASS" g x in
  y.1 = Ok TheImage
  ∧ Np.has_shape h w (image_buf y.2)
  ∧ (∀ r c, cell (image_buf y.2) r c
            = overlay_pixel (λ _ _, true) glasses tv th r c
                <$> cell (image_buf x) r c)
  ∧ output_buf y.2 = output_buf x
  ∧ stdout y.2 = stdout x
  ∧ drawn y.2 = drawn x.
Proof.
  intros Hplace Hglasses Himage Hrows Hcols y. subst y.
  rewrite (glass_overlay_run _ _ _ _ _ Hplace). unfold bind.
  destruct (overlay_inside_run glasses tv th gw gh h w x Hglasses Hrows Hcols Himage)
    as [Hok (Hshape & Hcells & Hrest)].
  destruct (overlay glasses tv th x) as [[[]|e] x']; simpl in *; [|discriminate].
  split; [reflexivity|]. split; [exact Hshape|]. split; [|exact Hrest].
  intros r c. rewrite Hcells.
  destruct (cell (image_buf x) r c) as [p|]; [|reflexivity].
  simpl. f_equal. apply overlay_pixel_ext.
  intros i j [px Hpx].
  destruct (cell_bounds gw gh _ _ _ _ Hglasses Hpx) as [Hi _].
  unfold before. replace (i <? gw)%nat with true by (symmetry; apply Nat.ltb_lt; lia).
  reflexivity.
Qed.

Lemma overlay_inside_witness :
  let cv := Reference.cv2 [("g.png"%string, [[Pixel4 1 2 3 255; Pixel4 4 5 6 0]])] in
  let x := World [[Runs.black; Runs.black]; [Runs.black; Runs.black]]
                 (Ints (Runs.landmarks [(68%nat, 2); (1%nat, 2); (5%nat, 2)]))
                 [] [] in
  let y := create_output_image "GLASS" "g.png" x in
  (placement "g.png" x).1 = Ok ([[Pixel4 1 2 3 255; Pixel4 4 5 6 0]], (1, 0))
  ∧ y.1 = Ok TheImage
  ∧ cell (image_buf y.2) 1 0 = Some (Pixel 1 2 3)
  ∧ cell (image_buf y.2) 1 1 = Some Runs.black
  ∧ cell (image_buf y.2) 0 0 = Some Runs.black.
Proof.
  intros cv x y.
  assert ((placement "g.png" x).1
          = Ok ([[Pixel4 1 2 3 255; Pixel4 4 5 6 0]], (1, 0))) as Hplace
    by reflexivity.
  split; [exact Hplace|].
  destruct (overlay_inside "g.png" x _ 1 0 1 2 2 2 Hplace
              ltac:(repeat constructor) ltac:(repeat constructor)
              ltac:(lia) ltac:(lia))
    as (Hok & _ & Hcells & _).
  split; [exact Hok|].
  repeat split; (etrans; [apply Hcells | reflexivity]).
Defined.

(** ** The rendering step and the saved file *)

Lemma list_ascii_of_string_app (s1 s2 : string) :
  Stdlib.Strings.String.list_ascii_of_string (s1 +:+ s2)
  = Stdlib.Strings.String.list_ascii_of_string s1
    ++ Stdlib.Strings.String.list_ascii_of_string s2.
Proof. induction s1 as [|a s1 IH]; simpl; [reflexivity | rewrite IH; reflexivity]. Qed.

Lemma string_app_inv_tail (s1 s2 s : string) : s1 +:+ s = s2 +:+ s → s1 = s2.
Proof.
  intros H%(f_equal Stdlib.Strings.String.list_ascii_of_string).
  rewrite !list_ascii_of_string_app in H. apply app_inv_tail in H.
  rewrite <- (Stdlib.Strings.String.string_of_list_ascii_of_string s1),
    <- (Stdlib.Strings.String.string_of_list_ascii_of_string s2).
  rewrite H. reflexivity.
Qed.

(** Line 181: the file a run writes is determined by the model type alone,
    and two model types never share a file. *)
Theorem output_file_of_the_tag (t1 t2 : string) :
  output_file t1 = output_file t2 ↔ t1 = t2.
Proof.
  split; [|intros ->; reflexivity].
  unfold output_file. intros H.
  apply (inj (String.app "outputs/")) in H.
  exact (string_app_inv_tail _ _ _ H).
Qed.

(** Lines 171 to 181 never raise.  Whatever the tag, one array is handed to
    [imwrite] under the tag's file name, and exactly one status line is
    printed last: "Success" when the dispatcher returned, "Error" when it
    raised.  The only other line a run prints is the warning, and it is
    printed exactly for the tags outside the six model types. *)
Theorem render_prints_one_status `{cv : Cv2} (t g : string) (x : world) :
  let r := render_and_save t g x in
  ∃ a status,
    r.1 = Ok (output_file t, a)
    ∧ (status = "Success"%string ∧ (∃ img, (create_output_image t g x).1 = Ok img)
       ∨ status = "Error"%string ∧ (∃ e, (create_output_image t g x).1 = Raise e))
    ∧ stdout r.2
      = stdout x ++ (if decide (t ∈ MODEL_TYPES) then [] else [UNKNOWN_WARNING])
                 ++ [status].
Proof.
  intros r. subst r.
  assert (stdout (create_output_image t g x).2
          = stdout x ++ (if decide (t ∈ MODEL_TYPES) then [] else [UNKNOWN_WARNING]))
    as Hout.
  { case_decide as Htag.
    - rewrite app_nil_r. apply branch_keeps_stdout. exact Htag.
    - rewrite (fallback_taken _ _ _ Htag). reflexivity. }
  unfold render_and_save, render_step, bind, print, get_image, ret.
  destruct (create_output_image t g x) as [[img|e] x'] eqn:Hrun; simpl in *.
  - eexists _, "Success"%string. split; [reflexivity|].
    split; [left; eauto|]. rewrite Hout, <- app_assoc. reflexivity.
  - eexists _, "Error"%string. split; [reflexivity|].
    split; [right; eauto|]. rewrite Hout, <- app_assoc. reflexivity.
Qed.

(** A tag outside the six model types is no error to the caller: the run
    prints the warning, then "Success", and saves the input image as it
    was under the unknown tag's file name. *)
Theorem unknown_tag_is_saved `{cv : Cv2} (t g : string) (x : world) :
  t ∉ MODEL_TYPES →
  render_and_save t g x
  = (Ok (output_file t, image_buf x),
     World (image_buf x) (output_buf x)
           (stdout x ++ [UNKNOWN_WARNING; "Success"%string]) (drawn x)).
Proof.
  intros Htag. unfold render_and_save, render_step, bind.
  rewrite (fallback_taken _ _ _ Htag). unfold fallback. simpl.
  rewrite <- app_assoc. reflexivity.
Qed.

Lemma unknown_tag_is_saved_witness :
  let x := World [[Pixel 1 2 3]] (Ints [4; 5]) [] [] in
  ("pose"%string ∉ MODEL_TYPES)
  ∧ (render_and_save (cv := Reference.cv2 []) "pose" "" x).1
    = Ok ("outputs/pose-output_1.png"%string, [[Pixel 1 2 3]]).
Proof.
  intros x.
  assert ("pose"%string ∉ MODEL_TYPES) as Htag
    by (apply not_model_type; repeat split).
  split; [exact Htag|].
  rewrite (unknown_tag_is_saved (cv := Reference.cv2 []) "pose" "" x Htag).
  reflexivity.
Defined.

(** ** The annotation of GENDER (lines 127 to 138) *)

(** On a decodable output GENDER draws one text on the caller's image, in
    place, and returns that image: the age, a comma, the gender and a
    trailing blank, in green.  Font scale and thickness are 2 and 3 times a
    factor that is the image height divided by 5000, and 1 at least, so 1
    for every image of fewer than 10000 rows; the anchor is not scaled: 20
    columns in, 10 rows above the bottom edge, which is above the image
    when it has fewer than 10 rows. *)
Theorem gender_annotation `{cv : Cv2} (output : list Z) (age : Z)
    (gender_type : string) (g : string) (x : world) :
  output_buf x = Ints output →
  decodeGender output = Ok (age, gender_type) →
  ∃ s row,
    create_output_image "GENDER" g x
    = (Ok TheImage,
       draw_all [PutText (str age +:+ "," +:+ gender_type +:+ " ")
                         (20, row) FONT_HERSHEY_SIMPLEX
                         (float_of_int (2 * s)) (Pixel 0 255 0) (3 * s)] x)
    ∧ s = Z.max (Z.of_nat (length (image_buf x)) / 5000) 1
    ∧ row = Z.of_nat (length (image_buf x)) - 10
    ∧ 1 ≤ s
    ∧ (Z.of_nat (length (image_buf x)) < 10000 → s = 1)
    ∧ (Z.of_nat (length (image_buf x)) < 10 → row < 0).
Proof.
  intros Hout Hdec. eexists _, _. split; [|split; [reflexivity|split; [reflexivity|]]].
  - change (create_output_image "GENDER" g) with gender.
    unfold gender, ints, get_output, get_image, bind, of_result. simpl.
    rewrite Hout. simpl. rewrite Hdec. reflexivity.
  - split; [lia|]. split.
    + intros Hsmall.
      assert (Z.of_nat (length (image_buf x)) / 5000 ≤ 1)
        by (apply Z.lt_succ_r, Z.div_lt_upper_bound; lia).
      lia.
    + intros Hsmall. lia.
Qed.

Lemma gender_annotation_witness :
  let x := World [[Pixel 1 2 3]] (Ints [31; 1]) [] [] in
  drawn (create_output_image (cv := Reference.cv2 []) "GENDER" "" x).2
  = [PutText "31,male " (20, -9) 0 2%float (Pixel 0 255 0) 3].
Proof.
  intros x.
  destruct (gender_annotation (cv := Reference.cv2 []) [31; 1] 31 "male" "" x
              eq_refl eq_refl) as (s & row & Hrun & _ & Hrow & _ & Hs & _).
  rewrite Hrun. rewrite (Hs ltac:(simpl; lia)), Hrow. reflexivity.
Defined.
